(** * The data-fusion and scoring pipeline of dataLoader.js

    A shallow embedding of class [DataLoader]: [randomSample],
    [calculateHealthScore], [getWorstSeverity], [getHealthGrade],
    [processData] and [loadData], followed by the properties the
    specification states about them.

    Modelling conventions.
    - A row of either dataset is a JavaScript object: a finite map from
      property names to values, which are [undefined], [null], booleans,
      numbers, strings, and arrays of values.  Reading a property that is
      not there gives [undefined], as in JavaScript.  Both loaders (d3.json
      on a list of records, d3.csv) produce arrays of such rows.
    - A JavaScript string is the Rocq string of its code units; the model
      covers strings whose code units are below 256, so [String.length] is
      the [.length] property.
    - A method call on a value that has no such method raises a TypeError;
      functions that can raise return a [result].
    - [Math.random] is an explicit stream of samples of the unit interval.
    - [processData] writes into the review rows it is given; the rows as
      they are after the call are part of what the model returns. *)

From Stdlib Require Import ZArith QArith Lia Ascii.
From Stdlib Require String.
From stdpp Require Import gmap strings list fin_maps pretty.

Local Close Scope Q_scope.
Local Open Scope nat_scope.

(** ** JavaScript values *)

Inductive number :=
  | NaN
  | Finite (q : Q).

#[warnings="-register-all"] Inductive value :=
  | VUndefined
  | VNull
  | VBool (b : bool)
  | VNum (n : number)
  | VStr (s : string)
  | VArr (elements : list value).

#[global] Instance Q_eq_dec : EqDecision Q.
Proof. solve_decision. Defined.
#[global] Instance number_eq_dec : EqDecision number.
Proof. solve_decision. Defined.

Fixpoint value_eq_dec (x y : value) {struct x} : Decision (x = y).
Proof.
  refine
    match x, y with
    | VUndefined, VUndefined => left eq_refl
    | VNull, VNull => left eq_refl
    | VBool a, VBool b => cast_if (decide (a = b))
    | VNum a, VNum b => cast_if (decide (a = b))
    | VStr a, VStr b => cast_if (decide (a = b))
    | VArr a, VArr b => cast_if (@list_eq_dec _ value_eq_dec a b)
    | _, _ => right _
    end; congruence.
Defined.
#[global] Existing Instance value_eq_dec.

Abbreviation object := (gmap string value).

(** [o[k]] *)
Definition get (o : object) (k : string) : value :=
  default VUndefined (o !! k).

(** An integral number. *)
Definition of_Z (z : Z) : value := VNum (Finite (inject_Z z)).

(** ToBoolean *)
Definition truthy (v : value) : bool :=
  match v with
  | VUndefined | VNull => false
  | VBool b => b
  | VNum NaN => false
  | VNum (Finite q) => negb (Qnum q =? 0)%Z
  | VStr s => negb (String.eqb s "")
  | VArr _ => true
  end.

(** [Array.isArray(v)] *)
Definition is_array (v : value) : bool :=
  match v with
  | VArr _ => true
  | _ => false
  end.

(** [a || b] and [a && b] *)
Definition js_or (a b : value) : value := if truthy a then a else b.
Definition js_and (a b : value) : value := if truthy a then b else a.

(** [v === "s"] for a string literal *)
Definition strict_eq_str (v : value) (s : string) : bool :=
  match v with
  | VStr t => String.eqb t s
  | _ => false
  end.

(** ** Exceptions *)

Inductive result (A : Type) :=
  | Ok (a : A)
  | TypeError.
Arguments Ok {A} a.
Arguments TypeError {A}.

#[global] Instance result_ret : MRet result := λ A a, Ok a.
#[global] Instance result_bind : MBind result := λ A B f m,
  match m with
  | Ok a => f a
  | TypeError => TypeError
  end.

(** ** String built-ins *)

(** WhiteSpace and LineTerminator code units below 256:
    TAB, LF, VT, FF, CR, SP and NBSP. *)
Definition is_js_space (c : ascii) : bool :=
  let n := N_of_ascii c in
  ((9 <=? n) && (n <=? 13) || (n =? 32) || (n =? 160))%N.

Fixpoint trimStart (s : string) : string :=
  match s with
  | EmptyString => EmptyString
  | String c s' => if is_js_space c then trimStart s' else s
  end.

Fixpoint trimEnd (s : string) : string :=
  match s with
  | EmptyString => EmptyString
  | String c s' =>
      let t := trimEnd s' in
      if is_js_space c && String.eqb t "" then EmptyString else String c t
  end.

Definition str_trim (s : string) : string := trimEnd (trimStart s).

(** Upper-case code units below 256: A-Z, and the Latin-1 letters
    0xC0-0xDE other than the multiplication sign 0xD7. *)
Definition lower_unit (c : ascii) : ascii :=
  let n := N_of_ascii c in
  if ((65 <=? n) && (n <=? 90)
      || (192 <=? n) && (n <=? 222) && negb (n =? 215))%N
  then ascii_of_N (n + 32) else c.

Fixpoint str_toLowerCase (s : string) : string :=
  match s with
  | EmptyString => EmptyString
  | String c s' => String (lower_unit c) (str_toLowerCase s')
  end.

Fixpoint str_includes (s sub : string) : bool :=
  String.prefix sub s ||
  match s with
  | EmptyString => false
  | String _ s' => str_includes s' sub
  end.

(** [v.includes(sub)]: a string has the method (whether [sub] is a part of
    it) and so has an array (whether [sub] is one of its elements); any
    other value has none, and the call raises. *)
Definition includes (v : value) (sub : string) : result bool :=
  match v with
  | VStr s => Ok (str_includes s sub)
  | VArr elements => Ok (existsb (λ e, strict_eq_str e sub) elements)
  | _ => TypeError
  end.

(** [v.trim().toLowerCase()]: only a string has [trim]. *)
Definition trim_toLowerCase (v : value) : result string :=
  match v with
  | VStr s => Ok (str_toLowerCase (str_trim s))
  | _ => TypeError
  end.

(** [v.length] of a truthy value: the number of code units of a string,
    the number of elements of an array, [undefined] ([None]) for a number
    or a boolean. *)
Definition length_of (v : value) : option nat :=
  match v with
  | VStr s => Some (String.length s)
  | VArr elements => Some (length elements)
  | _ => None
  end.

(** [(t / 10).toFixed(1)] for a number of tenths [t]. *)
Definition toFixed1 (tenths : nat) : string :=
  pretty (tenths / 10) +:+ "." +:+ pretty (tenths mod 10).

(** ** Math.random *)

(** A sample of the interval [0, 1): the fraction [num / den]. *)
Record unit_sample := {
  num : nat;
  den : nat;
  in_unit : (num <? den) = true
}.

(** The generator is the sequence of the samples it is going to return. *)
Definition rng := nat → unit_sample.

Definition Math_random (g : rng) : unit_sample * rng :=
  (g 0, λ k, g (S k)).

(** [Math.floor(r * m)] for a length [m], with the product taken exactly.
    The code rounds the product to a double before it takes the floor,
    which for some samples gives the next index (the double nearest to 0.7
    times 10 is just below 7 and rounds to 7) but always one below [m], as
    here (lemma [floor_scaled_lt]).  The
    properties below hold for every generator, or use the samples 0 and
    1/2, whose products with a length are exact in doubles. *)
Definition floor_scaled (r : unit_sample) (m : nat) : nat :=
  (num r * m) / den r.

(** ** DataLoader *)

Record DataLoader := {
  SAMPLE_SIZE : option Z;            (* [None] is null *)
  RESTAURANT_TYPES : gset string
}.

(** The constructor. *)
Definition new_DataLoader : DataLoader := {|
  SAMPLE_SIZE := Some 15000%Z;
  RESTAURANT_TYPES :=
    list_to_set
      [ "Restaurant"; "Food Take Out"; "Food Court Vendor";
        "Cocktail Bar / Beverage Room"; "Banquet Facility";
        "Cafeteria - Public Access"; "Private Club";
        "Mobile Food Preparation Premises"; "Hot Dog Cart";
        "Ice Cream / Yogurt Vendors"; "Refreshment Stand (Stationary)";
        "Food Cart"; "Catering Vehicle"; "Chartered Cruise Boats" ]
|}.

Definition dataLoader : DataLoader := new_DataLoader.

(** [set.has(v)] *)
Definition set_has (s : gset string) (v : value) : bool :=
  match v with
  | VStr t => bool_decide (t ∈ s)
  | _ => false
  end.

(** *** randomSample *)

(** [[result[i], result[j]] = [result[j], result[i]]].  Both indices are
    inside the array wherever [randomSample] swaps (lemma
    [shuffle_index_in_range]). *)
Definition swap {A} (l : list A) (i j : nat) : list A :=
  match l !! i, l !! j with
  | Some ri, Some rj => <[j:=ri]> (<[i:=rj]> l)
  | _, _ => l
  end.

(** The loop [for (let i = 0; i < sampleSize; i++)], entered at [i] with
    [remaining = sampleSize - i] iterations to go. *)
Fixpoint shuffle_loop {A} (remaining i : nat) (g : rng) (result : list A)
  : list A * rng :=
  match remaining with
  | O => (result, g)
  | S remaining' =>
      let '(r, g') := Math_random g in
      let j := i + floor_scaled r (length result - i) in
      shuffle_loop remaining' (S i) g' (swap result i j)
  end.

(** [l.slice(0, e)] *)
Definition slice0 {A} (l : list A) (e : Z) : list A :=
  if (e <? 0)%Z then take (Z.to_nat (Z.of_nat (length l) + e)) l
  else take (Z.to_nat e) l.

Definition randomSample {A} (g : rng) (array : list A) (sampleSize : option Z)
  : list A * rng :=
  match sampleSize with
  | None => (array, g)
  | Some s =>
      if (s =? 0)%Z || (Z.of_nat (length array) <=? s)%Z then (array, g)
      else
        let '(result, g') := shuffle_loop (Z.to_nat s) 0 g array in
        (slice0 result s, g')
  end.

(** *** Scoring *)

Definition calculateHealthScore (restaurant : object) : result Z :=
  let score := 100%Z in
  let score :=
    if strict_eq_str (get restaurant "Establishment Status") "Closed"
    then (score - 100)%Z
    else if strict_eq_str (get restaurant "Establishment Status")
                          "Conditional Pass"
    then (score - 30)%Z
    else score in
  let severity := js_or (get restaurant "Severity") (VStr "") in
  score ←
    (c ← includes severity "C - Crucial";
     if c : bool then mret (score - 40)%Z
     else
       s ← includes severity "S - Significant";
       if s : bool then mret (score - 20)%Z
       else
         m ← includes severity "M - Minor";
         if m : bool then mret (score - 10)%Z else mret score);
  mret (Z.max 0 score).

Definition getWorstSeverity (restaurant : object) : result string :=
  let severity := js_or (get restaurant "Severity") (VStr "") in
  c ← includes severity "C - Crucial";
  if c : bool then mret "C"
  else
    s ← includes severity "S - Significant";
    if s : bool then mret "S"
    else
      m ← includes severity "M - Minor";
      if m : bool then mret "M" else mret "clean".

Definition getHealthGrade (healthScore : Z) : string :=
  if (90 <=? healthScore)%Z then "A"
  else if (75 <=? healthScore)%Z then "B"
  else if (60 <=? healthScore)%Z then "C"
  else "D".

(** *** Review rating synthesis *)

(** [(3.0 + (nameLength % 15) / 10).toFixed(1)].  For a length the sum is
    within one unit in the last place of the decimal with
    [30 + nameLength % 15] tenths, far from a rounding boundary of
    [toFixed(1)]; for [undefined] every step is NaN. *)
Definition synth_rating (nameLength : option nat) : value :=
  match nameLength with
  | Some n => VStr (toFixed1 (30 + n mod 15))
  | None => VStr "NaN"
  end.

(** [5 + (nameLength % 100)] *)
Definition synth_reviews (nameLength : option nat) : value :=
  match nameLength with
  | Some n => of_Z (5 + Z.of_nat (n mod 100))
  | None => VNum NaN
  end.

(** The callback of the first [yelpData.forEach]: the row [d] as it is
    after the callback has run on it. *)
Definition synthesize (d : object) : object :=
  if negb (truthy (get d "avg_rating")) then
    let nameLength :=
      if truthy (get d "Restaurant Name")
      then length_of (get d "Restaurant Name")
      else Some 10 in
    let d := <["avg_rating" := synth_rating nameLength]> d in
    <["num_of_reviews" := synth_reviews nameLength]> d
  else d.

(** *** The lookup table *)

(** The callback of the second [yelpData.forEach]; a row is an object, so
    [yelpRest && ...] goes on to the name. *)
Definition index_review (yelpLookup : gmap string object) (yelpRest : object)
  : result (gmap string object) :=
  if truthy (get yelpRest "Restaurant Name") then
    key ← trim_toLowerCase (get yelpRest "Restaurant Name");
    if bool_decide (is_Some (yelpLookup !! key)) then mret yelpLookup
    else mret (<[key := yelpRest]> yelpLookup)
  else mret yelpLookup.

Fixpoint build_lookup (yelpData : list object)
    (yelpLookup : gmap string object) : result (gmap string object) :=
  match yelpData with
  | [] => mret yelpLookup
  | yelpRest :: rest =>
      yelpLookup' ← index_review yelpLookup yelpRest;
      build_lookup rest yelpLookup'
  end.

(** *** Enrichment *)

(** What [yelpMatch] holds: [null], [undefined] (no entry under the key)
    or a review row. *)
Inductive yelp_ref :=
  | YNull
  | YUndefined
  | YObj (r : object).

(** [yelpLookup.get(key)] *)
Definition lookup_get (yelpLookup : gmap string object) (key : string)
  : yelp_ref :=
  match yelpLookup !! key with
  | Some r => YObj r
  | None => YUndefined
  end.

(** [{ ...dinesafeRest, yelpMatch, healthScore, healthGrade, worstSeverity }]:
    the properties copied from the inspection row and the four added ones. *)
Record enriched := {
  inherited : object;
  yelpMatch : yelp_ref;
  healthScore : Z;
  healthGrade : string;
  worstSeverity : string
}.

(** The callback of [sampledDinesafe.map]. *)
Definition enrich (yelpLookup : gmap string object) (dinesafeRest : object)
  : result enriched :=
  yelpMatch ←
    (if truthy (get dinesafeRest "Establishment Name") then
       key ← trim_toLowerCase (get dinesafeRest "Establishment Name");
       mret (lookup_get yelpLookup key)
     else mret YNull);
  healthScore ← calculateHealthScore dinesafeRest;
  worst ← getWorstSeverity dinesafeRest;
  mret {| inherited := dinesafeRest;
          yelpMatch := yelpMatch;
          healthScore := healthScore;
          healthGrade := getHealthGrade healthScore;
          worstSeverity := worst |}.

(** The callback of the final [filter]: [d["Latitude"] && d["Longitude"]];
    neither key is one of the added properties. *)
Definition has_geo (d : enriched) : bool :=
  truthy (js_and (get (inherited d) "Latitude") (get (inherited d) "Longitude")).

(** *** processData *)

(** The second argument of [processData]: an array of rows, or something
    that is not an array (a value that is none, or an object). *)
Inductive yelp_arg :=
  | YelpArray (rows : list object)
  | YelpScalar (v : value) (not_array : is_array v = false)
  | YelpObject (o : object).

(** What a call leaves behind: the two arguments as they are after the call,
    the generator, and the value returned or the exception raised. *)
Record outcome := {
  dinesafe_after : list object;
  yelp_after : yelp_arg;
  rng_after : rng;
  returned : result (list enriched)
}.

Definition processData (this : DataLoader) (g : rng)
    (dinesafeJson : list object) (yelpData : yelp_arg) : outcome :=
  let restaurantsOnly :=
    List.filter
      (λ d, set_has (RESTAURANT_TYPES this) (get d "Establishment Type"))
      dinesafeJson in
  let '(sampledDinesafe, g') :=
    randomSample g restaurantsOnly (SAMPLE_SIZE this) in
  (* a non-array is replaced by [[]] in the local variable only *)
  let rows := match yelpData with YelpArray rows => rows | _ => [] end in
  (* the first forEach writes into the rows *)
  let rows := synthesize <$> rows in
  {| dinesafe_after := dinesafeJson;
     yelp_after :=
       match yelpData with YelpArray _ => YelpArray rows | other => other end;
     rng_after := g';
     returned :=
       yelpLookup ← build_lookup rows ∅;
       merged ← mapM (enrich yelpLookup) sampledDinesafe;
       mret (List.filter has_geo merged) |}.

(** *** loadData *)

(** The three cache entries of the session storage.  An entry holds the
    string [JSON.stringify] made; it is modelled by the data [JSON.parse]
    reads back from that string, which for rows as the loaders deliver them
    (no property or array element that is [undefined] or NaN) is the data
    that was stored.
    [getItem] gives [null] ([None]) for an entry that is not there, and the
    string of an array is never empty, so an entry is truthy when it is
    there. *)
Record session (G : Type) := {
  cachedGeoData : option G;
  cachedDinesafeData : option (list object);
  cachedYelpData : option (list object)
}.
Arguments cachedGeoData {G} _.
Arguments cachedDinesafeData {G} _.
Arguments cachedYelpData {G} _.

Definition empty_session {G} : session G :=
  {| cachedGeoData := None; cachedDinesafeData := None;
     cachedYelpData := None |}.

(** The three [setItem] calls of the [try] block, of which the first
    [writes] succeed before one raises (all of them when [3 <= writes]). *)
Definition cache_raw {G} (s : session G) (writes : nat)
    (geo : G) (dinesafeJson yelpData : list object) : session G :=
  match writes with
  | 0 => s
  | 1 => {| cachedGeoData := Some geo;
            cachedDinesafeData := cachedDinesafeData s;
            cachedYelpData := cachedYelpData s |}
  | 2 => {| cachedGeoData := Some geo;
            cachedDinesafeData := Some dinesafeJson;
            cachedYelpData := cachedYelpData s |}
  | _ => {| cachedGeoData := Some geo;
            cachedDinesafeData := Some dinesafeJson;
            cachedYelpData := Some yelpData |}
  end.

Record loaded (G : Type) := {
  session_after : session G;
  load_rng_after : rng;
  resolved : result (G * list enriched)   (* { geo, mergedData } *)
}.
Arguments session_after {G} _.
Arguments load_rng_after {G} _.
Arguments resolved {G} _.

(** [files] is what the three fetches deliver. *)
Definition loadData {G} (this : DataLoader) (s : session G)
    (files : G * list object * list object) (writes : nat) (g : rng)
  : loaded G :=
  match cachedGeoData s, cachedDinesafeData s, cachedYelpData s with
  | Some geo, Some dinesafeJson, Some yelpData =>
      let o := processData this g dinesafeJson (YelpArray yelpData) in
      {| session_after := s;
         load_rng_after := rng_after o;
         resolved := mergedData ← returned o; mret (geo, mergedData) |}
  | _, _, _ =>
      let '(geo, dinesafeJson, yelpData) := files in
      let s' := cache_raw s writes geo dinesafeJson yelpData in
      let o := processData this g dinesafeJson (YelpArray yelpData) in
      {| session_after := s';
         load_rng_after := rng_after o;
         resolved := mergedData ← returned o; mret (geo, mergedData) |}
  end.

(** ** Vocabulary of the specification *)

(** A property that holds text or nothing: a string, or a falsy value
    (absent, [null], [false], [0], [NaN]); an array is neither. *)
Definition text_or_falsy (v : value) : bool :=
  match v with
  | VStr _ => true
  | _ => negb (truthy v)
  end.

(** What the two scans of the severity can search: text or nothing, and
    also an array, which has a method [includes] of its own. *)
Definition searchable (v : value) : bool := text_or_falsy v || is_array v.

(** The text of a property, empty when the property holds no text. *)
Definition text_of (v : value) : string :=
  match v with
  | VStr s => s
  | _ => ""
  end.

(** The deduction for the status: 100 for "Closed", 30 for
    "Conditional Pass", 0 otherwise. *)
Definition status_deduction (restaurant : object) : Z :=
  if decide (get restaurant "Establishment Status" = VStr "Closed") then 100
  else if decide (get restaurant "Establishment Status"
                  = VStr "Conditional Pass") then 30
  else 0.

(** The deduction for the severity text: 40, else 20, else 10, else 0. *)
Definition severity_deduction (restaurant : object) : Z :=
  let text := text_of (get restaurant "Severity") in
  if str_includes text "C - Crucial" then 40
  else if str_includes text "S - Significant" then 20
  else if str_includes text "M - Minor" then 10
  else 0.

(** The normalized name: trimmed and lower-cased. *)
Definition normalize (s : string) : string := str_toLowerCase (str_trim s).

(** The key under which a row is joined: the normalized name, for a row
    that has a name; a row whose name property is not there, is empty or
    holds no text has none. *)
Definition join_key (v : value) : option string :=
  match v with
  | VStr s => if String.eqb s "" then None else Some (normalize s)
  | _ => None
  end.

(** The review row [r] has the normalized name [k]. *)
Definition has_key (k : string) (r : object) : bool :=
  bool_decide (join_key (get r "Restaurant Name") = Some k).

(** Rows as the data model describes them: names and severity hold text
    or nothing. *)
Definition inspection_wf (d : object) : bool :=
  text_or_falsy (get d "Establishment Name")
  && text_or_falsy (get d "Severity").

Definition review_wf (r : object) : bool :=
  text_or_falsy (get r "Restaurant Name").

(** An inspection row the pipeline can enrich: the name holds text or
    nothing and the severity can be searched. *)
Definition inspection_readable (d : object) : bool :=
  text_or_falsy (get d "Establishment Name")
  && searchable (get d "Severity").

(** The review rows the pipeline works on. *)
Definition rows_of (y : yelp_arg) : list object :=
  match y with
  | YelpArray rows => rows
  | _ => []
  end.

(** The inspection rows that pass the type filter. *)
Definition restaurants (this : DataLoader) (dinesafeJson : list object)
  : list object :=
  List.filter
    (λ d, set_has (RESTAURANT_TYPES this) (get d "Establishment Type"))
    dinesafeJson.

(** The rows the pipeline enriches: the sample of the restaurants. *)
Definition sampled (this : DataLoader) (g : rng) (dinesafeJson : list object)
  : list object :=
  (randomSample g (restaurants this dinesafeJson) (SAMPLE_SIZE this)).1.

(** No sampling takes place: it is switched off, or the restaurants fit
    in the bound. *)
Definition within_bound (this : DataLoader) (dinesafeJson : list object)
  : Prop :=
  match SAMPLE_SIZE this with
  | None => True
  | Some s =>
      s = 0%Z ∨ (Z.of_nat (length (restaurants this dinesafeJson)) ≤ s)%Z
  end.

(** No review was matched. *)
Definition absent (m : yelp_ref) : Prop := m = YNull ∨ m = YUndefined.

(** *** Numeric text *)

(** Whether [Number(v)] is a number rather than NaN: the grammar of
    StringNumericLiteral for a string. *)
Definition is_digit (c : ascii) : bool :=
  let n := N_of_ascii c in ((48 <=? n) && (n <=? 57))%N.

Definition is_hex_digit (c : ascii) : bool :=
  let n := N_of_ascii c in
  (is_digit c || (65 <=? n) && (n <=? 70) || (97 <=? n) && (n <=? 102))%N.

Fixpoint skip_digits (s : string) : string :=
  match s with
  | EmptyString => EmptyString
  | String c s' => if is_digit c then skip_digits s' else s
  end.

Definition starts_with_digit (s : string) : bool :=
  match s with
  | EmptyString => false
  | String c _ => is_digit c
  end.

Definition skip_sign (s : string) : string :=
  match s with
  | String c s' =>
      if Ascii.eqb c "+" || Ascii.eqb c "-" then s' else s
  | EmptyString => EmptyString
  end.

(** An optional exponent part, then the end of the text. *)
Definition exponent_then_end (s : string) : bool :=
  match s with
  | EmptyString => true
  | String c s' =>
      (Ascii.eqb c "e" || Ascii.eqb c "E")
      && starts_with_digit (skip_sign s')
      && String.eqb (skip_digits (skip_sign s')) ""
  end.

Definition is_unsigned_decimal (s : string) : bool :=
  String.eqb s "Infinity" ||
  match s with
  | String "." s' => starts_with_digit s' && exponent_then_end (skip_digits s')
  | _ =>
      starts_with_digit s &&
      match skip_digits s with
      | String "." s' => exponent_then_end (skip_digits s')
      | rest => exponent_then_end rest
      end
  end.

Fixpoint all_units (f : ascii → bool) (s : string) : bool :=
  match s with
  | EmptyString => true
  | String c s' => f c && all_units f s'
  end.

Definition is_non_decimal (s : string) : bool :=
  match s with
  | String "0" (String p (String c s')) =>
      if Ascii.eqb p "x" || Ascii.eqb p "X"
      then all_units is_hex_digit (String c s')
      else if Ascii.eqb p "o" || Ascii.eqb p "O"
      then all_units (λ c, is_digit c && (N_of_ascii c <=? 55)%N) (String c s')
      else if Ascii.eqb p "b" || Ascii.eqb p "B"
      then all_units (λ c, Ascii.eqb c "0" || Ascii.eqb c "1") (String c s')
      else false
  | _ => false
  end.

Definition is_numeric_string (s : string) : bool :=
  let t := str_trim s in
  String.eqb t "" || is_unsigned_decimal (skip_sign t) || is_non_decimal t.

(** An array is converted through its text, the texts of its elements
    joined by commas, in which [undefined] and [null] are empty: the text
    of an array of two or more elements has a comma and is no number. *)
Fixpoint numeric_element (v : value) : bool :=
  match v with
  | VUndefined | VNull => true
  | VBool _ => false
  | VNum NaN => false
  | VNum (Finite _) => true
  | VStr s => is_numeric_string s
  | VArr [] => true
  | VArr [e] => numeric_element e
  | VArr _ => false
  end.

Definition numeric_parseable (v : value) : bool :=
  match v with
  | VUndefined => false
  | VNull | VBool _ => true
  | VNum NaN => false
  | VNum (Finite _) => true
  | VStr s => is_numeric_string s
  | VArr _ => numeric_element v
  end.

(** ** Sample data *)

(** *** Generators *)

(** The sample 0 and the sample 1/2. *)
Definition sample_zero : unit_sample :=
  {| num := 0; den := 1; in_unit := eq_refl |}.
Definition sample_half : unit_sample :=
  {| num := 1; den := 2; in_unit := eq_refl |}.

(** A generator that always returns 0, and one that returns 1/2 first. *)
Definition rng_zero : rng := λ _, sample_zero.
Definition rng_half_first : rng :=
  λ k, match k with 0 => sample_half | S _ => sample_zero end.

(** *** Rows used in examples *)

Definition restaurant_row (name lat lon : string) : object :=
  {[ "Establishment Name" := VStr name;
     "Establishment Type" := VStr "Restaurant";
     "Establishment Status" := VStr "Pass";
     "Latitude" := VStr lat;
     "Longitude" := VStr lon ]}.

Definition row_a : object := restaurant_row "A" "43.6" "-79.4".
Definition row_b : object := restaurant_row "B" "43.7" "-79.3".

(** One restaurant more than the default sample bound. *)
Definition many_restaurants : list object :=
  row_a :: replicate (Z.to_nat 15000) row_b.

(** A row whose coordinates are text that is not a number. *)
Definition row_no_number : object := restaurant_row "C" "abc" "xyz".

(** A review row without a rating. *)
Definition review_cafe : object := {[ "Restaurant Name" := VStr "Cafe" ]}.


(** ** The prototype script

    The script of the first version of the map fuses the two datasets in
    the callback of [Promise.all(...).then]: the same two [forEach] passes
    over the review rows as [processData] (a review row is an object, so
    the guard [yelpRest &&] that [processData] adds changes nothing), then
    a [map] that adds [yelpMatch] only, then the same coordinate filter.
    There is no type filter, no sample and no scoring. *)

(** [{ ...dinesafeRest, yelpMatch }] *)
Record fused := {
  fused_row : object;
  fused_yelpMatch : yelp_ref
}.

(** The callback of [dinesafeRestaurants.map]. *)
Definition script_merge (yelpLookup : gmap string object)
    (dinesafeRest : object) : result fused :=
  yelpMatch ←
    (if truthy (get dinesafeRest "Establishment Name") then
       key ← trim_toLowerCase (get dinesafeRest "Establishment Name");
       mret (lookup_get yelpLookup key)
     else mret YNull);
  mret {| fused_row := dinesafeRest; fused_yelpMatch := yelpMatch |}.

(** The callback of the [filter]. *)
Definition script_has_geo (d : fused) : bool :=
  truthy (js_and (get (fused_row d) "Latitude") (get (fused_row d) "Longitude")).

(** The review rows as the callback leaves them, and the value it assigns
    to [mergedData] (or the exception that goes to [catch]). *)
Definition script_mergedData (dinesafeJson yelpData : list object)
  : list object * result (list fused) :=
  let yelpData := synthesize <$> yelpData in
  (yelpData,
   yelpLookup ← build_lookup yelpData ∅;
   merged ← mapM (script_merge yelpLookup) dinesafeJson;
   mret (List.filter script_has_geo merged)).

(** What the prototype keeps of an enriched row. *)
Definition fused_of (e : enriched) : fused :=
  {| fused_row := inherited e; fused_yelpMatch := yelpMatch e |}.

(** ** The tooltip (tooltip.js)

    Class [Tooltip] keeps two timer ids and drives the tooltip element.
    The model keeps what the methods read and write: the two fields, the
    timers that are pending in the page ([setTimeout] hands out fresh
    positive ids, which are truthy; [clearTimeout] of an id that is not
    pending does nothing), and of the element whether it is hidden, its
    content and its position.  Lengths are whole pixels.  What a method
    reads from outside (whether a map animation is running, the size of the
    element and of the window) is an argument. *)
Module Tooltip.

(** [event.pageX], [event.pageY] *)
Record mouse_event := {
  pageX : Z;
  pageY : Z
}.

(** What [move] reads from the page: [offsetWidth] and [offsetHeight] of
    the tooltip node ([None] when [tooltip.node()] is null), and
    [window.innerWidth], [window.innerHeight]. *)
Record page := {
  tooltipNode : option (Z * Z);
  innerWidth : Z;
  innerHeight : Z
}.

(** The callbacks handed to [setTimeout]: the one of [show], which closes
    over the event and the row, and the one of [hide]. *)
Inductive callback :=
  | ShowTimer (event : mouse_event) (d : enriched)
  | HideTimer.

(** The tooltip element: class [hidden], the HTML it holds, and the styles
    [left] and [top] in pixels. *)
Record element := {
  hidden : bool;
  html : option string;
  left : Z;
  top : Z
}.

Record state := {
  tooltipShowTimeout : option nat;     (* [None] is null *)
  tooltipHideTimeout : option nat;
  timers : gmap nat callback;          (* the pending timers of the page *)
  next_timer : nat;                    (* the id [setTimeout] returns next *)
  tooltip : element
}.

(** [new Tooltip(mapState)] in a page that has set no timer yet and whose
    tooltip element is [el]. *)
Definition init (el : element) : state :=
  {| tooltipShowTimeout := None; tooltipHideTimeout := None;
     timers := ∅; next_timer := 1; tooltip := el |}.

Definition set_show (v : option nat) (st : state) : state :=
  {| tooltipShowTimeout := v; tooltipHideTimeout := tooltipHideTimeout st;
     timers := timers st; next_timer := next_timer st;
     tooltip := tooltip st |}.

Definition set_hide (v : option nat) (st : state) : state :=
  {| tooltipShowTimeout := tooltipShowTimeout st; tooltipHideTimeout := v;
     timers := timers st; next_timer := next_timer st;
     tooltip := tooltip st |}.

Definition set_tooltip (el : element) (st : state) : state :=
  {| tooltipShowTimeout := tooltipShowTimeout st;
     tooltipHideTimeout := tooltipHideTimeout st;
     timers := timers st; next_timer := next_timer st; tooltip := el |}.

(** [tooltip.classed("hidden", b)], [tooltip.html(h)] and the two
    [tooltip.style] calls of [move]. *)
Definition classed_hidden (b : bool) (el : element) : element :=
  {| hidden := b; html := html el; left := left el; top := top el |}.

Definition set_html (h : string) (el : element) : element :=
  {| hidden := hidden el; html := Some h; left := left el; top := top el |}.

Definition set_position (l t : Z) (el : element) : element :=
  {| hidden := hidden el; html := html el; left := l; top := t |}.

(** [clearTimeout(id)] *)
Definition clearTimeout (id : nat) (st : state) : state :=
  {| tooltipShowTimeout := tooltipShowTimeout st;
     tooltipHideTimeout := tooltipHideTimeout st;
     timers := delete id (timers st); next_timer := next_timer st;
     tooltip := tooltip st |}.

(** [setTimeout(cb, delay)]: the id and the state with the timer pending. *)
Definition setTimeout (cb : callback) (st : state) : nat * state :=
  (next_timer st,
   {| tooltipShowTimeout := tooltipShowTimeout st;
      tooltipHideTimeout := tooltipHideTimeout st;
      timers := <[next_timer st := cb]> (timers st);
      next_timer := S (next_timer st);
      tooltip := tooltip st |}).

(** Where [move] puts the tooltip: 20 pixels right of and below the
    pointer, on the other side of the pointer when it would come within 10
    pixels of the right or bottom edge of the window, and never less than
    10 pixels from the left and top edges. *)
Definition position (width height : Z) (pg : page) (event : mouse_event)
  : Z * Z :=
  let offsetX := 20%Z in
  let offsetY := 20%Z in
  let left := (pageX event + offsetX)%Z in
  let top := (pageY event + offsetY)%Z in
  let left :=
    if (innerWidth pg - 10 <? left + width)%Z
    then (pageX event - width - offsetX)%Z else left in
  let top :=
    if (innerHeight pg - 10 <? top + height)%Z
    then (pageY event - height - offsetY)%Z else top in
  (Z.max 10 left, Z.max 10 top).

Definition move (pg : page) (event : mouse_event) (st : state) : state :=
  match tooltipNode pg with
  | None => st
  | Some (tooltipWidth, tooltipHeight) =>
      let '(l, t) := position tooltipWidth tooltipHeight pg event in
      set_tooltip (set_position l t (tooltip st)) st
  end.

(** [if (this.tooltipHideTimeout) { clearTimeout(...); ... = null; }] *)
Definition cancel_hide (st : state) : state :=
  match tooltipHideTimeout st with
  | Some id => set_hide None (clearTimeout id st)
  | None => st
  end.

(** The same for [tooltipShowTimeout]. *)
Definition cancel_show (st : state) : state :=
  match tooltipShowTimeout st with
  | Some id => set_show None (clearTimeout id st)
  | None => st
  end.

Definition show (isAnimating : bool) (event : mouse_event) (d : enriched)
    (st : state) : state :=
  if isAnimating then st
  else
    let st := cancel_hide st in
    (* the pending show is cleared, the field is overwritten just below *)
    let st := match tooltipShowTimeout st with
              | Some id => clearTimeout id st
              | None => st
              end in
    let '(id, st) := setTimeout (ShowTimer event d) st in
    set_show (Some id) st.

Definition showCustom (isAnimating : bool) (pg : page) (event : mouse_event)
    (content : string) (st : state) : state :=
  if isAnimating then st
  else
    let st := cancel_hide st in
    let st := cancel_show st in
    let st :=
      set_tooltip (set_html content (classed_hidden false (tooltip st))) st in
    move pg event st.

Definition hide (st : state) : state :=
  let st := cancel_show st in
  match tooltipHideTimeout st with
  | Some _ => st
  | None =>
      let '(id, st) := setTimeout HideTimer st in
      set_hide (Some id) st
  end.

Definition hideImmediate (st : state) : state :=
  let st := cancel_show st in
  let st := cancel_hide st in
  set_tooltip (classed_hidden true (tooltip st)) st.

Section timers.
(** The HTML the template of [show] gives for a row, or [None] when
    building it raises (["⭐".repeat] of a negative or infinite count). *)
Context (render : enriched → option string).

(** The timer [id] expires: its callback runs, if it is still pending.  In
    the callback of [show] the element is un-hidden before the template is
    built, so when the template raises the element stays un-hidden with
    its old content and is not moved. *)
Definition fire (pg : page) (id : nat) (st : state) : state :=
  match timers st !! id with
  | None => st
  | Some cb =>
      let st := clearTimeout id st in
      match cb with
      | ShowTimer event d =>
          let st := set_tooltip (classed_hidden false (tooltip st)) st in
          match render d with
          | Some h => move pg event (set_tooltip (set_html h (tooltip st)) st)
          | None => st
          end
      | HideTimer =>
          set_hide None (set_tooltip (classed_hidden true (tooltip st)) st)
      end
  end.

(** What can happen to a tooltip: a method call, or a timer expiring. *)
Inductive action :=
  | Show (isAnimating : bool) (event : mouse_event) (d : enriched)
  | ShowCustom (isAnimating : bool) (pg : page) (event : mouse_event)
      (content : string)
  | Move (pg : page) (event : mouse_event)
  | Hide
  | HideImmediate
  | Fire (pg : page) (id : nat)
  | Elsewhere.   (* other code of the page sets a timer: an id is used up *)

Definition step (st : state) (a : action) : state :=
  match a with
  | Show isAnimating event d => show isAnimating event d st
  | ShowCustom isAnimating pg event content =>
      showCustom isAnimating pg event content st
  | Move pg event => move pg event st
  | Hide => hide st
  | HideImmediate => hideImmediate st
  | Fire pg id => fire pg id st
  | Elsewhere =>
      {| tooltipShowTimeout := tooltipShowTimeout st;
         tooltipHideTimeout := tooltipHideTimeout st;
         timers := timers st; next_timer := S (next_timer st);
         tooltip := tooltip st |}
  end.

Definition run (st : state) (actions : list action) : state :=
  foldl step st actions.
End timers.

(** Timers expiring one after the other, each in the page as it is then. *)
Definition expiries (l : list (page * nat)) : list action :=
  (λ p, Fire p.1 p.2) <$> l.

(** The bookkeeping is consistent: pending timers have ids that were handed
    out, a pending timer of [show] is the one in [tooltipShowTimeout], the
    timer of [hide] is pending exactly when [tooltipHideTimeout] holds it,
    and [tooltipShowTimeout] (which may hold the id of a timer that has
    expired) never holds the id of the timer of [hide]. *)
Record consistent (st : state) : Prop := {
  timers_fresh :
    ∀ id cb, timers st !! id = Some cb → id < next_timer st;
  show_recorded :
    ∀ id event d, timers st !! id = Some (ShowTimer event d) →
                  tooltipShowTimeout st = Some id;
  hide_recorded :
    ∀ id, timers st !! id = Some HideTimer ↔ tooltipHideTimeout st = Some id;
  show_not_hide :
    ∀ id, tooltipShowTimeout st = Some id → timers st !! id ≠ Some HideTimer
}.

(** The colour of the score in the template of [show]. *)
Definition score_colour (healthScore : Z) : string :=
  if (90 <=? healthScore)%Z then "#27ae60"
  else if (70 <=? healthScore)%Z then "#f39c12"
  else "#e74c3c".

End Tooltip.

(** * Properties *)

(** ** The exception monad *)

Lemma bind_Ok_inv {A B} (f : A → result B) (m : result A) (b : B) :
  (m ≫= f) = Ok b → ∃ a, m = Ok a ∧ f a = Ok b.
Proof. destruct m as [a|]; [eauto | discriminate]. Qed.

(** Split a hypothesis [m ≫= f = Ok b] into its two steps. *)
Tactic Notation "inv_bind" hyp(H) "as" ident(a) ident(Ha) :=
  apply bind_Ok_inv in H as (a & Ha & H).

Lemma mapM_Ok {A B} (f : A → result B) l out :
  mapM f l = Ok out ↔ Forall2 (λ x y, f x = Ok y) l out.
Proof.
  revert out. induction l as [|x l IH]; intros out; simpl.
  - split.
    + intros [= <-]. constructor.
    + by intros ->%Forall2_nil_inv_l.
  - split.
    + intros H. inv_bind H as y Hy. inv_bind H as k Hk. injection H as <-.
      constructor; [done|]. by apply IH.
    + intros (y & k & Hy & Hk & ->)%Forall2_cons_inv_l.
      rewrite Hy. simpl. apply IH in Hk. by rewrite Hk.
Qed.

Lemma mapM_total {A B} (f : A → result B) l :
  Forall (λ x, ∃ y, f x = Ok y) l → ∃ out, mapM f l = Ok out.
Proof.
  induction 1 as [|x l [y Hy] _ [out Hout]]; simpl; [by eexists|].
  rewrite Hy. simpl. rewrite Hout. by eexists.
Qed.

(** ** Truthiness and text *)

Lemma truthy_text s : truthy (VStr s) = true ↔ s ≠ "".
Proof.
  simpl. destruct (String.eqb_spec s "") as [->|Hne]; simpl; split;
    congruence.
Qed.

Lemma truthy_present v : truthy v = true → v ≠ VUndefined ∧ v ≠ VStr "".
Proof.
  destruct v as [| |b|n|s|l]; try done.
  intros Hs%truthy_text. split; congruence.
Qed.

Lemma truthy_js_and a b : truthy (js_and a b) = truthy a && truthy b.
Proof. unfold js_and. by destruct (truthy a) eqn:Ha. Qed.

Lemma severity_is_text v :
  text_or_falsy v = true → js_or v (VStr "") = VStr (text_of v).
Proof.
  unfold js_or. destruct v as [| |b|n|s|l]; simpl; try done.
  - intros ->%negb_true_iff. done.
  - intros ->%negb_true_iff. done.
  - intros _. destruct (String.eqb_spec s "") as [->|]; done.
Qed.

(** A truthy boolean or number has no method [includes]. *)
Lemma severity_not_text v sub :
  searchable v = false → includes (js_or v (VStr "")) sub = TypeError.
Proof.
  unfold searchable, js_or. destruct v as [| |b|n|s|l]; simpl; try done.
  - rewrite orb_false_r. intros ->%negb_false_iff. done.
  - rewrite orb_false_r. intros ->%negb_false_iff. done.
Qed.

(** An array is searched for the element, whatever it holds. *)
Lemma severity_array l sub :
  includes (js_or (VArr l) (VStr "")) sub
  = Ok (existsb (λ e, strict_eq_str e sub) l).
Proof. reflexivity. Qed.

Lemma strict_eq_str_decide v s :
  strict_eq_str v s = bool_decide (v = VStr s).
Proof.
  destruct v as [| |b|n|t|l]; simpl; try done.
  destruct (String.eqb_spec t s) as [->|Hne].
  - by rewrite bool_decide_eq_true_2.
  - rewrite bool_decide_eq_false_2; [done | congruence].
Qed.

(** The key of a name that the code normalizes, and of one it skips. *)
Lemma join_key_truthy v k :
  truthy v = true → trim_toLowerCase v = Ok k → join_key v = Some k.
Proof.
  destruct v as [| |b|n|s|l]; try done. simpl.
  intros ->%negb_true_iff [= <-]. done.
Qed.

Lemma join_key_falsy v : truthy v = false → join_key v = None.
Proof.
  destruct v as [| |b|n|s|l]; try done. simpl.
  by intros ->%negb_false_iff.
Qed.

Lemma join_key_Some v k :
  join_key v = Some k →
  truthy v = true ∧ k = normalize (text_of v) ∧ trim_toLowerCase v = Ok k.
Proof.
  destruct v as [| |b|n|s|l]; try done. simpl.
  destruct (String.eqb s ""); [done|]. by intros [= <-].
Qed.

Lemma text_or_falsy_normalizes v :
  text_or_falsy v = true →
  truthy v = true → ∃ k, trim_toLowerCase v = Ok k.
Proof.
  destruct v as [| |b|n|s|l]; simpl; try done; try (by intros ->%negb_true_iff).
  eauto.
Qed.

(** ** Objects *)

Lemma get_insert (o : object) k k' v :
  get (<[k:=v]> o) k' = if decide (k = k') then v else get o k'.
Proof. unfold get. rewrite lookup_insert. by case_decide. Qed.

Lemma get_insert_eq (o : object) k v : get (<[k:=v]> o) k = v.
Proof. rewrite get_insert. by rewrite decide_True. Qed.

Lemma get_insert_ne (o : object) k k' v :
  k ≠ k' → get (<[k:=v]> o) k' = get o k'.
Proof. intros. rewrite get_insert. by rewrite decide_False. Qed.

(** ** Arrays *)

Lemma elem_of_bfilter {A} (f : A → bool) l x :
  x ∈ List.filter f l ↔ x ∈ l ∧ f x = true.
Proof. rewrite !list_elem_of_In. apply filter_In. Qed.

Lemma bfilter_all {A} (f : A → bool) l :
  Forall (λ x, f x = true) l → List.filter f l = l.
Proof. induction 1 as [|x l Hx _ IH]; simpl; [done|]. by rewrite Hx, IH. Qed.

Lemma find_first {A} (f : A → bool) before x after :
  Forall (λ y, f y = false) before → f x = true →
  List.find f (before ++ x :: after) = Some x.
Proof.
  intros Hbefore Hx. induction Hbefore as [|y before Hy _ IH]; simpl.
  - by rewrite Hx.
  - by rewrite Hy.
Qed.

Lemma find_none {A} (f : A → bool) l :
  Forall (λ y, f y = false) l → List.find f l = None.
Proof. induction 1 as [|y l Hy _ IH]; simpl; [done|]. by rewrite Hy. Qed.

(** ** Scoring *)

Lemma calculateHealthScore_text restaurant :
  text_or_falsy (get restaurant "Severity") = true →
  calculateHealthScore restaurant
  = Ok (Z.max 0 (100 - status_deduction restaurant
                     - severity_deduction restaurant)).
Proof.
  intros Htext. unfold calculateHealthScore, status_deduction,
    severity_deduction.
  rewrite (severity_is_text _ Htext), !strict_eq_str_decide. simpl.
  set (text := text_of _).
  repeat case_bool_decide; repeat case_decide; try congruence;
    destruct (str_includes text "C - Crucial");
    destruct (str_includes text "S - Significant");
    destruct (str_includes text "M - Minor"); simpl; f_equal; lia.
Qed.

(** A severity that is a non-zero number or [true] makes the scoring
    raise. *)
Lemma calculateHealthScore_not_text restaurant :
  searchable (get restaurant "Severity") = false →
  calculateHealthScore restaurant = TypeError.
Proof.
  intros Htext. unfold calculateHealthScore.
  by rewrite (severity_not_text _ "C - Crucial" Htext).
Qed.

Lemma getWorstSeverity_text restaurant :
  text_or_falsy (get restaurant "Severity") = true →
  ∃ w, getWorstSeverity restaurant = Ok w.
Proof.
  intros Htext. unfold getWorstSeverity.
  rewrite (severity_is_text _ Htext). simpl.
  repeat (match goal with |- context [if ?b then _ else _] => destruct b end);
    eauto.
Qed.

Lemma severity_deduction_range restaurant :
  (0 ≤ severity_deduction restaurant ≤ 40)%Z.
Proof.
  unfold severity_deduction.
  repeat (match goal with |- context [if ?b then _ else _] => destruct b end);
    lia.
Qed.

Lemma status_deduction_range restaurant :
  (0 ≤ status_deduction restaurant ≤ 100)%Z.
Proof. unfold status_deduction. repeat case_decide; lia. Qed.

(** C1.  For an inspection row whose severity is text (or absent), the
    computed health score is [max(0, 100 - s - v)] with [s] the status
    deduction (100 for "Closed", 30 for "Conditional Pass", else 0) and [v]
    the severity deduction (40 / 20 / 10 / 0 by the first of "C - Crucial",
    "S - Significant", "M - Minor" the text contains); a "Closed" row scores
    0 whatever its severity, and every score lies between 0 and 100. *)
Theorem healthScore_formula (restaurant : object) :
  text_or_falsy (get restaurant "Severity") = true →
  ∃ score,
    calculateHealthScore restaurant = Ok score
    ∧ score = Z.max 0 (100 - status_deduction restaurant
                           - severity_deduction restaurant)
    ∧ (get restaurant "Establishment Status" = VStr "Closed" → score = 0%Z)
    ∧ (0 ≤ score ≤ 100)%Z.
Proof.
  intros Htext. eexists. split; [by apply calculateHealthScore_text|].
  pose proof (severity_deduction_range restaurant).
  pose proof (status_deduction_range restaurant).
  split; [done|]. split; [|lia].
  intros Hclosed. unfold status_deduction in *.
  rewrite decide_True by done. lia.
Qed.

Lemma healthScore_formula_witness :
  ∃ score,
    calculateHealthScore
      {[ "Establishment Status" := VStr "Conditional Pass";
         "Severity" := VStr "M - Minor - floor not clean" ]} = Ok score
    ∧ score = 60%Z.
Proof.
  destruct (healthScore_formula
              {[ "Establishment Status" := VStr "Conditional Pass";
                 "Severity" := VStr "M - Minor - floor not clean" ]})
    as (score & Hs & Hformula & _); [reflexivity|].
  exists score. split; [exact Hs|]. rewrite Hformula. reflexivity.
Defined.

(** The scores the specification lists. *)
Example score_closed_crucial :
  calculateHealthScore {[ "Establishment Status" := VStr "Closed";
                          "Severity" := VStr "C - Crucial" ]} = Ok 0%Z.
Proof. reflexivity. Qed.

Example score_conditional_clean :
  calculateHealthScore {[ "Establishment Status" := VStr "Conditional Pass" ]}
  = Ok 70%Z.
Proof. reflexivity. Qed.

Example score_pass_minor :
  calculateHealthScore {[ "Establishment Status" := VStr "Pass";
                          "Severity" := VStr "M - Minor" ]} = Ok 90%Z.
Proof. reflexivity. Qed.

(** C7.  The grade follows fixed thresholds: at least 90 gives A, 75 to 89
    gives B, 60 to 74 gives C, below 60 gives D; so 90 is A, 89 and 75 are
    B, 74 and 60 are C, and 59 is D. *)
Theorem healthGrade_thresholds :
  (∀ score : Z,
     ((90 ≤ score)%Z → getHealthGrade score = "A")
     ∧ ((75 ≤ score < 90)%Z → getHealthGrade score = "B")
     ∧ ((60 ≤ score < 75)%Z → getHealthGrade score = "C")
     ∧ ((score < 60)%Z → getHealthGrade score = "D"))
  ∧ getHealthGrade 90 = "A" ∧ getHealthGrade 89 = "B"
  ∧ getHealthGrade 75 = "B" ∧ getHealthGrade 74 = "C"
  ∧ getHealthGrade 60 = "C" ∧ getHealthGrade 59 = "D".
Proof.
  split; [|by repeat split].
  intros score. unfold getHealthGrade.
  repeat split; intros ?;
    repeat (match goal with
            | |- context [(?a <=? ?b)%Z] => destruct (Z.leb_spec a b)
            end); (done || lia).
Qed.

Lemma healthGrade_thresholds_witness : getHealthGrade 80 = "B".
Proof.
  apply (proj1 (proj2 (proj1 healthGrade_thresholds 80%Z))). lia.
Defined.

(** ** Sampling *)

Lemma floor_scaled_lt r m : 0 < m → floor_scaled r m < m.
Proof.
  intros Hm. unfold floor_scaled. destruct r as [n d Hnd]; simpl.
  apply Nat.ltb_lt in Hnd.
  apply Nat.Div0.div_lt_upper_bound. nia.
Qed.

(** The index [j] drawn in an iteration lies between [i] and the end of
    the array. *)
Lemma shuffle_index_in_range {A} (result : list A) r i :
  i < length result →
  i ≤ i + floor_scaled r (length result - i) < length result.
Proof.
  intros Hi. pose proof (floor_scaled_lt r (length result - i)). lia.
Qed.

Lemma swap_length {A} (l : list A) i j : length (swap l i j) = length l.
Proof.
  unfold swap. destruct (l !! i), (l !! j); by rewrite ?length_insert.
Qed.

Lemma swap_Permutation {A} (l : list A) i j : swap l i j ≡ₚ l.
Proof.
  unfold swap. destruct (l !! i) eqn:Hi, (l !! j) eqn:Hj; try done.
  by apply Permutation_insert_swap.
Qed.

(** A swap of two positions after the first leaves the first alone. *)
Lemma swap_head {A} (l : list A) i j :
  0 < i → 0 < j → swap l i j !! 0 = l !! 0.
Proof.
  intros Hi Hj. unfold swap. destruct (l !! i), (l !! j); try done.
  rewrite !list_lookup_insert_ne by lia. done.
Qed.

Lemma swap_lookup_l {A} (l : list A) i j x :
  i < length l → l !! j = Some x → swap l i j !! i = Some x.
Proof.
  intros Hi Hj. unfold swap.
  destruct (lookup_lt_is_Some_2 l i Hi) as [y Hy]. rewrite Hy, Hj.
  destruct (decide (i = j)) as [->|Hne].
  - rewrite list_lookup_insert_eq; [congruence|].
    rewrite length_insert. done.
  - rewrite list_lookup_insert_ne by done.
    by rewrite list_lookup_insert_eq.
Qed.

Lemma shuffle_loop_length {A} remaining i g (l : list A) :
  length (shuffle_loop remaining i g l).1 = length l.
Proof.
  revert i g l. induction remaining as [|n IH]; intros i g l; simpl; [done|].
  rewrite IH. apply swap_length.
Qed.

Lemma shuffle_loop_Permutation {A} remaining i g (l : list A) :
  (shuffle_loop remaining i g l).1 ≡ₚ l.
Proof.
  revert i g l. induction remaining as [|n IH]; intros i g l; simpl; [done|].
  rewrite IH. apply swap_Permutation.
Qed.

(** Iterations entered after the first position keep the first element. *)
Lemma shuffle_loop_head {A} remaining i g (l : list A) :
  0 < i → (shuffle_loop remaining i g l).1 !! 0 = l !! 0.
Proof.
  revert i g l. induction remaining as [|n IH]; intros i g l Hi; simpl;
    [done|].
  rewrite IH by lia. apply swap_head; lia.
Qed.

Lemma slice0_nonneg {A} (l : list A) (e : Z) :
  (0 ≤ e)%Z → slice0 l e = take (Z.to_nat e) l.
Proof.
  intros He. unfold slice0. destruct (Z.ltb_spec e 0); [lia | done].
Qed.

Lemma randomSample_disabled {A} g (array : list A) sampleSize :
  sampleSize = None ∨ sampleSize = Some 0%Z →
  randomSample g array sampleSize = (array, g).
Proof. by intros [-> | ->]. Qed.

Lemma randomSample_all {A} g (array : list A) s :
  (Z.of_nat (length array) ≤ s)%Z →
  randomSample g array (Some s) = (array, g).
Proof.
  intros Hle. unfold randomSample.
  destruct (Z.leb_spec (Z.of_nat (length array)) s); [|lia].
  by rewrite orb_true_r.
Qed.

Lemma randomSample_draw {A} g (array : list A) s :
  (0 < s < Z.of_nat (length array))%Z →
  randomSample g array (Some s)
  = (take (Z.to_nat s) (shuffle_loop (Z.to_nat s) 0 g array).1,
     (shuffle_loop (Z.to_nat s) 0 g array).2).
Proof.
  intros Hs. unfold randomSample.
  destruct (Z.eqb_spec s 0); [lia|].
  destruct (Z.leb_spec (Z.of_nat (length array)) s); [lia|]. simpl.
  destruct (shuffle_loop _ _ _ _) as [result g']. simpl.
  by rewrite slice0_nonneg by lia.
Qed.

(** The sample is a sub-multiset of the array: no position is drawn twice. *)
Lemma randomSample_submseteq {A} g (array : list A) sampleSize :
  (randomSample g array sampleSize).1 ⊆+ array.
Proof.
  unfold randomSample. destruct sampleSize as [s|]; [|done].
  destruct (_ || _); [done|].
  destruct (shuffle_loop _ _ _ _) as [result g'] eqn:Hloop. simpl.
  assert (result ≡ₚ array) as <-.
  { change result with (result, g').1. rewrite <-Hloop.
    apply shuffle_loop_Permutation. }
  unfold slice0. destruct (_ <? _)%Z; apply sublist_submseteq, sublist_take.
Qed.

(** The first element of a sample that was drawn is the element at the
    first index drawn. *)
Lemma randomSample_first {A} g (array : list A) s :
  (0 < s < Z.of_nat (length array))%Z →
  (randomSample g array (Some s)).1 !! 0
  = array !! floor_scaled (g 0) (length array).
Proof.
  intros Hs. rewrite randomSample_draw by done. simpl.
  rewrite lookup_take_lt by lia.
  destruct (Z.to_nat s) as [|n] eqn:Hn; [lia|]. simpl.
  rewrite shuffle_loop_head by lia. rewrite Nat.sub_0_r.
  pose proof (floor_scaled_lt (g 0) (length array)) as Hj.
  destruct (lookup_lt_is_Some_2 array (floor_scaled (g 0) (length array)))
    as [x Hx]; [lia|].
  rewrite Hx. apply swap_lookup_l; [lia | done].
Qed.

(** A sample of two out of three: 1/2 of three picks index 1, then 0 of the
    remaining two picks the next position itself. *)
Example randomSample_two_of_three :
  (randomSample rng_half_first [10; 20; 30] (Some 2%Z)).1 = [20; 10].
Proof. reflexivity. Qed.

(** C6, as the code has it.  The sampling step returns the array unchanged
    when its length is at most the bound, and also when the bound is 0 or
    null (sampling switched off); for a positive bound below the length it
    returns exactly [sampleSize] elements taken from distinct positions of
    the array. *)
Theorem randomSample_size_correct {A} (g : rng) (array : list A)
    (sampleSize : option Z) :
  (∀ s, sampleSize = Some s → (Z.of_nat (length array) ≤ s)%Z →
        (randomSample g array sampleSize).1 = array)
  ∧ (sampleSize = None ∨ sampleSize = Some 0%Z →
        (randomSample g array sampleSize).1 = array)
  ∧ (∀ s, sampleSize = Some s → (0 < s < Z.of_nat (length array))%Z →
        Z.of_nat (length (randomSample g array sampleSize).1) = s
        ∧ (randomSample g array sampleSize).1 ⊆+ array).
Proof.
  repeat split.
  - intros s -> Hle. by rewrite randomSample_all.
  - intros H. by rewrite randomSample_disabled.
  - subst. rewrite randomSample_draw by done. simpl.
    rewrite length_take, shuffle_loop_length. lia.
  - apply randomSample_submseteq.
Qed.

Lemma randomSample_size_correct_witness :
  Z.of_nat (length (randomSample rng_half_first [10; 20; 30] (Some 2%Z)).1)
  = 2%Z.
Proof.
  apply (proj2 (proj2 (randomSample_size_correct rng_half_first
                         [10; 20; 30] (Some 2%Z))) 2%Z eq_refl).
  simpl. lia.
Defined.

(** C6 at the bound 0: the array is longer than the bound, and the step
    returns all of it, not 0 elements. *)
Lemma randomSample_bound_zero_counterexample :
  (0 < Z.of_nat (length [10; 20; 30]))%Z
  ∧ (randomSample rng_zero [10; 20; 30] (Some 0%Z)).1 = [10; 20; 30]
  ∧ Z.of_nat (length (randomSample rng_zero [10; 20; 30] (Some 0%Z)).1)
    ≠ 0%Z.
Proof. repeat split; done. Qed.

(** ** Rating synthesis *)

Lemma synthesize_truthy d :
  truthy (get d "avg_rating") = true → synthesize d = d.
Proof. intros H. unfold synthesize. by rewrite H. Qed.

Lemma synthesize_falsy d :
  truthy (get d "avg_rating") = false →
  synthesize d
  = <["num_of_reviews" :=
        synth_reviews (if truthy (get d "Restaurant Name")
                       then length_of (get d "Restaurant Name")
                       else Some 10)]>
      (<["avg_rating" :=
           synth_rating (if truthy (get d "Restaurant Name")
                         then length_of (get d "Restaurant Name")
                         else Some 10)]> d).
Proof. intros H. unfold synthesize. by rewrite H. Qed.

(** Synthesis writes two properties and no other. *)
Lemma synthesize_other d k :
  k ≠ "avg_rating" → k ≠ "num_of_reviews" → synthesize d !! k = d !! k.
Proof.
  intros H1 H2. unfold synthesize. destruct (negb _); [|done].
  by rewrite !lookup_insert_ne.
Qed.

Lemma synthesize_name d :
  get (synthesize d) "Restaurant Name" = get d "Restaurant Name".
Proof. unfold get. by rewrite synthesize_other. Qed.

Lemma has_key_synthesize k d : has_key k (synthesize d) = has_key k d.
Proof. unfold has_key. by rewrite synthesize_name. Qed.

Lemma review_wf_synthesize d : review_wf (synthesize d) = review_wf d.
Proof. unfold review_wf. by rewrite synthesize_name. Qed.

(** A row that has been through synthesis has a rating (possibly the text
    "NaN"), so a second pass changes nothing. *)
Lemma synthesize_idempotent d : synthesize (synthesize d) = synthesize d.
Proof.
  destruct (truthy (get d "avg_rating")) eqn:Hd.
  - by rewrite !(synthesize_truthy d Hd).
  - apply synthesize_truthy. rewrite (synthesize_falsy d Hd).
    rewrite get_insert_ne, get_insert_eq by done.
    destruct (if truthy _ then _ else _) as [n|]; [|done]. simpl.
    unfold toFixed1. by destruct (pretty _).
Qed.

(** The texts [toFixed(1)] produces for the fifteen possible ratings. *)
Lemma toFixed1_ratings :
  (λ k, toFixed1 (30 + k)) <$> seq 0 15
  = [ "3.0"; "3.1"; "3.2"; "3.3"; "3.4"; "3.5"; "3.6"; "3.7"; "3.8"; "3.9";
      "4.0"; "4.1"; "4.2"; "4.3"; "4.4" ].
Proof. reflexivity. Qed.

(** ** The lookup table *)

(** What indexing a row does to the table, when it does not raise. *)
Lemma index_review_Ok m r m' :
  index_review m r = Ok m' →
  m' = match join_key (get r "Restaurant Name") with
       | Some k => if m !! k is Some _ then m else <[k:=r]> m
       | None => m
       end.
Proof.
  unfold index_review. destruct (truthy _) eqn:Hname.
  - intros H. inv_bind H as key Hkey.
    rewrite (join_key_truthy _ _ Hname Hkey).
    destruct (m !! key) eqn:Hk.
    + rewrite bool_decide_eq_true_2 in H by done. by injection H.
    + rewrite bool_decide_eq_false_2 in H; [by injection H|].
      by intros [? ?].
  - rewrite (join_key_falsy _ Hname). by intros [= <-].
Qed.

Lemma index_review_total m r :
  review_wf r = true → ∃ m', index_review m r = Ok m'.
Proof.
  intros Hwf. unfold index_review. destruct (truthy _) eqn:Hname.
  - destruct (text_or_falsy_normalizes _ Hwf Hname) as [k ->]. simpl.
    case_bool_decide; by eexists.
  - by eexists.
Qed.

(** The table maps a key to the first row that has it. *)
Lemma build_lookup_Ok rows m m' :
  build_lookup rows m = Ok m' →
  ∀ k, m' !! k = if m !! k is Some r then Some r
                 else List.find (has_key k) rows.
Proof.
  revert m. induction rows as [|r rows IH]; intros m; simpl.
  - intros [= <-] k. by destruct (m !! k).
  - intros H k. inv_bind H as m1 Hm1. rewrite (IH _ H).
    rewrite (index_review_Ok _ _ _ Hm1). unfold has_key.
    destruct (join_key (get r "Restaurant Name")) as [k'|] eqn:Hkey.
    + destruct (decide (k' = k)) as [->|Hne].
      * rewrite bool_decide_eq_true_2 by done.
        destruct (m !! k) eqn:Hk; rewrite ?Hk; [done|].
        by rewrite lookup_insert_eq.
      * rewrite bool_decide_eq_false_2 by congruence.
        destruct (m !! k') eqn:Hk'; [done|].
        by rewrite lookup_insert_ne.
    + by rewrite bool_decide_eq_false_2.
Qed.

Lemma build_lookup_total rows m :
  Forall (λ r, review_wf r = true) rows → ∃ m', build_lookup rows m = Ok m'.
Proof.
  intros Hwf. revert m. induction Hwf as [|r rows Hr _ IH]; intros m; simpl.
  - by eexists.
  - destruct (index_review_total m r Hr) as [m1 ->]. simpl. apply IH.
Qed.

Lemma find_fmap_synthesize k rows :
  List.find (has_key k) (synthesize <$> rows)
  = synthesize <$> List.find (has_key k) rows.
Proof.
  induction rows as [|r rows IH]; simpl; [done|].
  rewrite has_key_synthesize. by destruct (has_key k r).
Qed.

(** ** Enrichment *)

(** What a successful enrichment produced. *)
Lemma enrich_Ok yelpLookup d e :
  enrich yelpLookup d = Ok e →
  inherited e = d
  ∧ yelpMatch e
    = (if truthy (get d "Establishment Name")
       then lookup_get yelpLookup
              (normalize (text_of (get d "Establishment Name")))
       else YNull)
  ∧ calculateHealthScore d = Ok (healthScore e)
  ∧ healthGrade e = getHealthGrade (healthScore e)
  ∧ getWorstSeverity d = Ok (worstSeverity e).
Proof.
  unfold enrich. intros H.
  inv_bind H as m Hm. inv_bind H as score Hscore. inv_bind H as w Hw.
  injection H as <-. simpl. repeat split; try done.
  destruct (truthy _); [|by injection Hm]. inv_bind Hm as key Hkey.
  injection Hm as <-.
  destruct (get d "Establishment Name"); try discriminate.
  by injection Hkey as <-.
Qed.

Lemma enrich_total yelpLookup d :
  inspection_wf d = true → ∃ e, enrich yelpLookup d = Ok e.
Proof.
  intros [Hname Hsev]%andb_true_iff. unfold enrich.
  assert (∃ m, (if truthy (get d "Establishment Name")
                then key ← trim_toLowerCase (get d "Establishment Name");
                     mret (lookup_get yelpLookup key)
                else mret YNull) = Ok m) as [m ->].
  { destruct (truthy _) eqn:Htruthy; [|by eexists].
    destruct (text_or_falsy_normalizes _ Hname Htruthy) as [k ->].
    by eexists. }
  simpl. rewrite (calculateHealthScore_text _ Hsev). simpl.
  destruct (getWorstSeverity_text _ Hsev) as [w ->]. by eexists.
Qed.

(** The end-to-end example of the specification. *)
Example enrich_significant :
  enrich ∅ {[ "Establishment Name" := VStr "A";
              "Establishment Type" := VStr "Restaurant";
              "Establishment Status" := VStr "Pass";
              "Severity" := VStr "S - Significant found";
              "Latitude" := VStr "43.6";
              "Longitude" := VStr "-79.4";
              "unique_id" := VStr "1" ]}
  = Ok {| inherited := {[ "Establishment Name" := VStr "A";
                          "Establishment Type" := VStr "Restaurant";
                          "Establishment Status" := VStr "Pass";
                          "Severity" := VStr "S - Significant found";
                          "Latitude" := VStr "43.6";
                          "Longitude" := VStr "-79.4";
                          "unique_id" := VStr "1" ]};
          yelpMatch := YUndefined;
          healthScore := 80;
          healthGrade := "B";
          worstSeverity := "S" |}.
Proof. reflexivity. Qed.

(** ** The pipeline *)

Section pipeline.
Context (this : DataLoader) (g : rng).
Context (dinesafeJson : list object) (yelpData : yelp_arg).

Lemma processData_returned :
  returned (processData this g dinesafeJson yelpData)
  = (yelpLookup ← build_lookup (synthesize <$> rows_of yelpData) ∅;
     merged ← mapM (enrich yelpLookup) (sampled this g dinesafeJson);
     mret (List.filter has_geo merged)).
Proof.
  unfold processData, sampled, restaurants.
  destruct (randomSample _ _ _) as [s g']. by destruct yelpData.
Qed.

Lemma processData_yelp_after :
  yelp_after (processData this g dinesafeJson yelpData)
  = match yelpData with
    | YelpArray rows => YelpArray (synthesize <$> rows)
    | other => other
    end.
Proof.
  unfold processData. destruct (randomSample _ _ _) as [s g'].
  by destruct yelpData.
Qed.

Lemma processData_dinesafe_after :
  dinesafe_after (processData this g dinesafeJson yelpData) = dinesafeJson.
Proof. unfold processData. by destruct (randomSample _ _ _) as [s g']. Qed.

(** Every sampled row is one of the restaurants of the dataset. *)
Lemma sampled_elem_of x :
  x ∈ sampled this g dinesafeJson →
  x ∈ dinesafeJson
  ∧ set_has (RESTAURANT_TYPES this) (get x "Establishment Type") = true.
Proof.
  intros Hx.
  apply (elem_of_bfilter
           (λ d, set_has (RESTAURANT_TYPES this)
                   (get d "Establishment Type"))).
  eapply elem_of_submseteq; [exact Hx|]. apply randomSample_submseteq.
Qed.

Lemma sampled_within_bound :
  within_bound this dinesafeJson →
  sampled this g dinesafeJson = restaurants this dinesafeJson.
Proof.
  unfold within_bound, sampled.
  destruct (SAMPLE_SIZE this) as [s|]; [|done].
  intros [->|Hle]; [done|]. by rewrite randomSample_all.
Qed.

(** What a call that returns has done: the table maps every key to the
    first review row that has it (as synthesis left it), every sampled row
    has been enriched, and the result is the enriched rows that have
    coordinates. *)
Lemma processData_Ok out :
  returned (processData this g dinesafeJson yelpData) = Ok out →
  ∃ yelpLookup merged,
    (∀ k, yelpLookup !! k
          = synthesize <$> List.find (has_key k) (rows_of yelpData))
    ∧ Forall2 (λ x e, enrich yelpLookup x = Ok e)
        (sampled this g dinesafeJson) merged
    ∧ out = List.filter has_geo merged.
Proof.
  rewrite processData_returned. intros H.
  inv_bind H as yelpLookup Hlookup. inv_bind H as merged Hmerged.
  injection H as <-. exists yelpLookup, merged.
  split; [|split]; [|by apply mapM_Ok|done].
  intros k. rewrite (build_lookup_Ok _ _ _ Hlookup), lookup_empty.
  apply find_fmap_synthesize.
Qed.

(** On well-formed rows the call returns. *)
Lemma processData_total :
  Forall (λ r, inspection_wf r = true) dinesafeJson →
  Forall (λ r, review_wf r = true) (rows_of yelpData) →
  ∃ out, returned (processData this g dinesafeJson yelpData) = Ok out.
Proof.
  intros Hd Hy. rewrite processData_returned.
  destruct (build_lookup_total (synthesize <$> rows_of yelpData) ∅)
    as [yelpLookup ->].
  { apply Forall_fmap. eapply Forall_impl; [exact Hy|].
    intros r. simpl. by rewrite review_wf_synthesize. }
  destruct (mapM_total (enrich yelpLookup) (sampled this g dinesafeJson))
    as [merged Hmerged].
  { apply Forall_forall. intros x [Hx _]%sampled_elem_of.
    apply enrich_total. by eapply Forall_forall in Hd. }
  simpl. rewrite Hmerged. by eexists.
Qed.

(** The first sampled row, when it has coordinates, gives the first
    returned row. *)
Lemma processData_first out x :
  returned (processData this g dinesafeJson yelpData) = Ok out →
  sampled this g dinesafeJson !! 0 = Some x →
  truthy (get x "Latitude") && truthy (get x "Longitude") = true →
  ∃ e, out !! 0 = Some e ∧ inherited e = x.
Proof.
  intros (yelpLookup & merged & _ & Hmerged & ->)%processData_Ok Hx Hgeo.
  destruct (Forall2_lookup_l _ _ _ _ _ Hmerged Hx) as (e & He & Hxe).
  destruct (enrich_Ok _ _ _ Hxe) as [Hin _].
  exists e. split; [|done].
  destruct merged as [|e' merged]; [done|]. injection He as ->. simpl.
  unfold has_geo at 1. by rewrite truthy_js_and, Hin, Hgeo.
Qed.
End pipeline.

(** A returned row comes from a sampled row. *)
Lemma returned_elem_of yelpLookup rows merged e :
  Forall2 (λ x e, enrich yelpLookup x = Ok e) rows merged →
  e ∈ List.filter has_geo merged →
  has_geo e = true ∧ inherited e ∈ rows
  ∧ enrich yelpLookup (inherited e) = Ok e.
Proof.
  intros Hmerged [He Hgeo]%elem_of_bfilter. split; [done|].
  apply list_elem_of_lookup in He as [i Hi].
  destruct (Forall2_lookup_r _ _ _ _ _ Hmerged Hi) as (x & Hx & Hxe).
  destruct (enrich_Ok _ _ _ Hxe) as [-> _].
  split; [|done]. apply list_elem_of_lookup. eauto.
Qed.

Lemma returned_inherited this g dinesafeJson yelpData out e :
  returned (processData this g dinesafeJson yelpData) = Ok out →
  e ∈ out → inherited e ∈ dinesafeJson.
Proof.
  intros (yelpLookup & merged & _ & Hmerged & ->)%processData_Ok He.
  destruct (returned_elem_of _ _ _ _ Hmerged He) as (_ & Hin & _).
  by apply sampled_elem_of in Hin as [? _].
Qed.

(** ** Rating synthesis in the pipeline *)

(** The review row behind a match: a row of the review array that has a
    name; the match is that row as synthesis left it, which is the row at
    the same position of the array after the call. *)
Lemma matched_row_position this g dinesafeJson rows out e r :
  returned (processData this g dinesafeJson (YelpArray rows)) = Ok out →
  e ∈ out → yelpMatch e = YObj r →
  ∃ j r0, rows !! j = Some r0 ∧ r = synthesize r0
          ∧ truthy (get r0 "Restaurant Name") = true.
Proof.
  intros (yelpLookup & merged & Hlookup & Hmerged & ->)%processData_Ok He Hr.
  destruct (returned_elem_of _ _ _ _ Hmerged He) as (_ & _ & Henrich).
  destruct (enrich_Ok _ _ _ Henrich) as (_ & Hmatch & _).
  rewrite Hr in Hmatch. destruct (truthy _); [|discriminate].
  unfold lookup_get in Hmatch. rewrite Hlookup in Hmatch. simpl in Hmatch.
  destruct (List.find _ rows) as [r0|] eqn:Hfind; [|discriminate].
  injection Hmatch as ->. apply find_some in Hfind as [Hin Hkey].
  apply list_elem_of_In, list_elem_of_lookup in Hin as [j Hj].
  exists j, r0. split; [done|]. split; [done|].
  unfold has_key in Hkey. apply bool_decide_eq_true in Hkey.
  by apply join_key_Some in Hkey as [? _].
Qed.

(** C8.  The pipeline gives every review row without a rating
    [avg_rating = 3.0 + (len mod 15) / 10] printed with one decimal (the
    text of [30 + len mod 15] tenths) and
    [num_of_reviews = 5 + (len mod 100)], where [len] is the length of the
    name, or 10 when the row has no name (none, or an empty one): the row
    at the same position of the review array after the call holds the two
    values, whether the call returns or raises.  Two rows without a
    rating whose names have the same length, in the same call or in two
    calls, are given the same two values.  A review row that a returned
    row is matched with is a row of the array after the call. *)
Theorem rating_synthesis (this : DataLoader) (g : rng)
    (dinesafeJson rows : list object) (i : nat) (d : object) :
  rows !! i = Some d →
  truthy (get d "avg_rating") = false →
  ∃ rows' d',
    yelp_after (processData this g dinesafeJson (YelpArray rows))
    = YelpArray rows'
    ∧ rows' !! i = Some d'
    ∧ (∀ name, get d "Restaurant Name" = VStr name → name ≠ "" →
         get d' "avg_rating"
         = VStr (toFixed1 (30 + String.length name mod 15))
         ∧ get d' "num_of_reviews"
           = of_Z (5 + Z.of_nat (String.length name mod 100)))
    ∧ (truthy (get d "Restaurant Name") = false →
         get d' "avg_rating" = VStr "4.0"
         ∧ get d' "num_of_reviews" = of_Z 15)
    ∧ (∀ this2 g2 dinesafeJson2 rows2 j e name name',
         rows2 !! j = Some e →
         truthy (get e "avg_rating") = false →
         get d "Restaurant Name" = VStr name →
         get e "Restaurant Name" = VStr name' →
         String.length name = String.length name' →
         ∃ rows2' e',
           yelp_after (processData this2 g2 dinesafeJson2 (YelpArray rows2))
           = YelpArray rows2'
           ∧ rows2' !! j = Some e'
           ∧ get d' "avg_rating" = get e' "avg_rating"
           ∧ get d' "num_of_reviews" = get e' "num_of_reviews")
    ∧ (∀ out e r,
         returned (processData this g dinesafeJson (YelpArray rows)) = Ok out →
         e ∈ out → yelpMatch e = YObj r →
         ∃ j, rows' !! j = Some r).
Proof.
  intros Hi Hd. exists (synthesize <$> rows), (synthesize d).
  split; [apply processData_yelp_after|].
  split; [by rewrite list_lookup_fmap, Hi|].
  rewrite (synthesize_falsy d Hd).
  rewrite get_insert_eq, get_insert_ne, get_insert_eq by done.
  split; [|split; [|split]].
  - intros name Hname Hne. rewrite Hname.
    apply truthy_text in Hne. by rewrite Hne.
  - by intros ->.
  - intros this2 g2 dinesafeJson2 rows2 j e name name' Hj He Hname Hname' Hlen.
    exists (synthesize <$> rows2), (synthesize e).
    split; [apply processData_yelp_after|].
    split; [by rewrite list_lookup_fmap, Hj|].
    rewrite (synthesize_falsy e He).
    rewrite get_insert_eq, get_insert_ne, get_insert_eq by done.
    rewrite Hname, Hname'. simpl.
    assert (String.eqb name "" = String.eqb name' "") as ->.
    { destruct name, name'; done. }
    by rewrite Hlen.
  - intros out e r Hout He Hr.
    destruct (matched_row_position _ _ _ _ _ _ _ Hout He Hr)
      as (j & r0 & Hj & -> & _).
    exists j. by rewrite list_lookup_fmap, Hj.
Qed.

Lemma rating_synthesis_witness :
  ∃ rows' d',
    yelp_after (processData dataLoader rng_zero [row_a]
                  (YelpArray [review_cafe])) = YelpArray rows'
    ∧ rows' !! 0 = Some d'
    ∧ get d' "avg_rating" = VStr "3.4"
    ∧ get d' "num_of_reviews" = of_Z 9.
Proof.
  destruct (rating_synthesis dataLoader rng_zero [row_a] [review_cafe]
              0 review_cafe eq_refl eq_refl)
    as (rows' & d' & Hafter & Hd' & Hname & _).
  exists rows', d'. split; [exact Hafter|]. split; [exact Hd'|].
  apply (Hname "Cafe"); [reflexivity | discriminate].
Defined.

(** ** Coordinates of the returned rows *)

(** C2, as the code has it.  Every row of the final output has a latitude
    and a longitude that are both truthy, hence present and not the empty
    string, so that a row of the dataset whose Latitude or Longitude is
    absent or the empty string is not among the returned rows; on
    well-formed rows there is a final output.  Whether the text is a number
    is not looked at. *)
Theorem output_has_coordinates (this : DataLoader) (g : rng)
    (dinesafeJson : list object) (yelpData : yelp_arg) :
  (∀ out e,
     returned (processData this g dinesafeJson yelpData) = Ok out →
     e ∈ out →
     inherited e ∈ dinesafeJson
     ∧ truthy (get (inherited e) "Latitude") = true
     ∧ truthy (get (inherited e) "Longitude") = true
     ∧ get (inherited e) "Latitude" ≠ VUndefined
     ∧ get (inherited e) "Latitude" ≠ VStr ""
     ∧ get (inherited e) "Longitude" ≠ VUndefined
     ∧ get (inherited e) "Longitude" ≠ VStr "")
  ∧ (Forall (λ r, inspection_wf r = true) dinesafeJson →
     Forall (λ r, review_wf r = true) (rows_of yelpData) →
     ∃ out, returned (processData this g dinesafeJson yelpData) = Ok out).
Proof.
  split; [|apply processData_total].
  intros out e (yelpLookup & merged & _ & Hmerged & ->)%processData_Ok He.
  destruct (returned_elem_of _ _ _ _ Hmerged He) as (Hgeo & Hin & _).
  unfold has_geo in Hgeo. rewrite truthy_js_and in Hgeo.
  apply andb_true_iff in Hgeo as [Hlat Hlon].
  destruct (truthy_present _ Hlat), (truthy_present _ Hlon).
  split; [|done]. by apply sampled_elem_of in Hin as [? _].
Qed.

Lemma output_has_coordinates_witness :
  ∃ out,
    returned (processData dataLoader rng_zero
                [row_a; restaurant_row "D" "" "-79.4"]
                (YelpArray [review_cafe])) = Ok out
    ∧ ∀ e, e ∈ out → get (inherited e) "Latitude" ≠ VStr "".
Proof.
  destruct (proj2 (output_has_coordinates dataLoader rng_zero
                     [row_a; restaurant_row "D" "" "-79.4"]
                     (YelpArray [review_cafe])))
    as [out Hout].
  - repeat constructor.
  - repeat constructor.
  - exists out. split; [exact Hout|]. intros e He.
    apply (proj1 (output_has_coordinates dataLoader rng_zero
                    [row_a; restaurant_row "D" "" "-79.4"]
                    (YelpArray [review_cafe])) out e Hout He).
Defined.

(** The row without a latitude is indeed dropped. *)
Example empty_latitude_dropped :
  ∃ e, returned (processData dataLoader rng_zero
                   [row_a; restaurant_row "D" "" "-79.4"]
                   (YelpArray [review_cafe])) = Ok [e]
       ∧ inherited e = row_a.
Proof. eexists. split; reflexivity. Qed.

(** C2 with coordinates that are not numbers: a restaurant whose
    coordinates are the texts "abc" and "xyz" is returned. *)
Lemma non_numeric_coordinates_counterexample :
  ∃ e,
    returned (processData dataLoader rng_zero [row_no_number] (YelpArray []))
    = Ok [e]
    ∧ inherited e = row_no_number
    ∧ get (inherited e) "Latitude" = VStr "abc"
    ∧ numeric_parseable (get (inherited e) "Latitude") = false.
Proof. eexists. repeat split. Qed.

(** ** The join *)

(** C5.  When several review rows share a normalized name, every returned
    row that joins on that name gets the row that came first in the review
    dataset (as synthesis left it), whatever follows it and whatever
    [Math.random] returns; when no review row has the name, nothing is
    matched.  On well-formed rows the pipeline returns. *)
Theorem join_first_wins (this : DataLoader) (g : rng)
    (dinesafeJson rows : list object) :
  (∀ out e k,
     returned (processData this g dinesafeJson (YelpArray rows)) = Ok out →
     e ∈ out →
     join_key (get (inherited e) "Establishment Name") = Some k →
     (∀ before r after,
        rows = before ++ r :: after →
        Forall (λ r', has_key k r' = false) before →
        has_key k r = true →
        yelpMatch e = YObj (synthesize r))
     ∧ (Forall (λ r', has_key k r' = false) rows →
        yelpMatch e = YUndefined))
  ∧ (Forall (λ r, inspection_wf r = true) dinesafeJson →
     Forall (λ r, review_wf r = true) rows →
     ∃ out,
       returned (processData this g dinesafeJson (YelpArray rows)) = Ok out).
Proof.
  split; [|apply (processData_total this g dinesafeJson (YelpArray rows))].
  intros out e k (yelpLookup & merged & Hlookup & Hmerged & ->)%processData_Ok
    He Hk.
  destruct (returned_elem_of _ _ _ _ Hmerged He) as (_ & _ & Henrich).
  destruct (enrich_Ok _ _ _ Henrich) as (_ & Hmatch & _).
  destruct (join_key_Some _ _ Hk) as (Htruthy & -> & _).
  rewrite Htruthy in Hmatch. rewrite Hmatch.
  unfold lookup_get. rewrite Hlookup. simpl. split.
  - intros before r after -> Hbefore Hr. by rewrite find_first.
  - intros Hnone. by rewrite find_none.
Qed.

Lemma join_first_wins_witness :
  ∃ out,
    returned (processData dataLoader rng_zero [restaurant_row "cafe " "1" "2"]
                (YelpArray [ {[ "Restaurant Name" := VStr "Bar" ]};
                             {[ "Restaurant Name" := VStr " CAFE";
                                "avg_rating" := VStr "4.5" ]};
                             {[ "Restaurant Name" := VStr "Cafe";
                                "avg_rating" := VStr "2.0" ]} ]))
    = Ok out
    ∧ ∀ e, e ∈ out →
        yelpMatch e
        = YObj (synthesize {[ "Restaurant Name" := VStr " CAFE";
                              "avg_rating" := VStr "4.5" ]}).
Proof.
  destruct (proj2 (join_first_wins dataLoader rng_zero
                     [restaurant_row "cafe " "1" "2"]
                     [ {[ "Restaurant Name" := VStr "Bar" ]};
                       {[ "Restaurant Name" := VStr " CAFE";
                          "avg_rating" := VStr "4.5" ]};
                       {[ "Restaurant Name" := VStr "Cafe";
                          "avg_rating" := VStr "2.0" ]} ]))
    as [out Hout].
  - repeat constructor.
  - repeat constructor.
  - exists out. split; [exact Hout|]. intros e He.
    pose proof (returned_inherited _ _ _ _ _ _ Hout He) as Hin.
    apply list_elem_of_singleton in Hin.
    apply (proj1 (proj1 (join_first_wins dataLoader rng_zero
                           [restaurant_row "cafe " "1" "2"]
                           [ {[ "Restaurant Name" := VStr "Bar" ]};
                             {[ "Restaurant Name" := VStr " CAFE";
                                "avg_rating" := VStr "4.5" ]};
                             {[ "Restaurant Name" := VStr "Cafe";
                                "avg_rating" := VStr "2.0" ]} ])
                    out e "cafe" Hout He
                    ltac:(rewrite Hin; reflexivity))
             [ {[ "Restaurant Name" := VStr "Bar" ]} ]
             {[ "Restaurant Name" := VStr " CAFE";
                "avg_rating" := VStr "4.5" ]}
             [ {[ "Restaurant Name" := VStr "Cafe";
                  "avg_rating" := VStr "2.0" ]} ]).
    + reflexivity.
    + repeat constructor.
    + reflexivity.
Defined.

(** The same run, evaluated. *)
Example first_cafe_row_joined :
  ∃ e,
    returned (processData dataLoader rng_zero [restaurant_row "cafe " "1" "2"]
                (YelpArray [ {[ "Restaurant Name" := VStr "Bar" ]};
                             {[ "Restaurant Name" := VStr " CAFE";
                                "avg_rating" := VStr "4.5" ]};
                             {[ "Restaurant Name" := VStr "Cafe";
                                "avg_rating" := VStr "2.0" ]} ]))
    = Ok [e]
    ∧ yelpMatch e = YObj {[ "Restaurant Name" := VStr " CAFE";
                            "avg_rating" := VStr "4.5" ]}.
Proof. eexists. split; reflexivity. Qed.

(** ** Malformed review data *)

(** C9.  When the review dataset is not an array the pipeline proceeds as
    with an empty review dataset: it returns (or, on ill-formed inspection
    rows, raises) exactly what it does for zero review rows and leaves the
    argument alone; no returned row has a matched review; and on
    well-formed inspection rows it does return. *)
Theorem malformed_reviews_as_empty (this : DataLoader) (g : rng)
    (dinesafeJson : list object) (yelpData : yelp_arg) :
  (∀ rows, yelpData ≠ YelpArray rows) →
  returned (processData this g dinesafeJson yelpData)
  = returned (processData this g dinesafeJson (YelpArray []))
  ∧ yelp_after (processData this g dinesafeJson yelpData) = yelpData
  ∧ (∀ out e,
       returned (processData this g dinesafeJson yelpData) = Ok out →
       e ∈ out → absent (yelpMatch e))
  ∧ (Forall (λ r, inspection_wf r = true) dinesafeJson →
     ∃ out, returned (processData this g dinesafeJson yelpData) = Ok out).
Proof.
  intros Hna.
  assert (rows_of yelpData = []) as Hrows.
  { destruct yelpData; [|done..]. by destruct (Hna rows). }
  split; [rewrite !processData_returned, Hrows; reflexivity|].
  split.
  { rewrite processData_yelp_after.
    destruct yelpData as [rows| |]; [by destruct (Hna rows) | done..]. }
  split.
  - intros out e (yelpLookup & merged & Hlookup & Hmerged & ->)%processData_Ok
      He.
    destruct (returned_elem_of _ _ _ _ Hmerged He) as (_ & _ & Henrich).
    destruct (enrich_Ok _ _ _ Henrich) as (_ & -> & _).
    destruct (truthy _); [|by left]. right.
    unfold lookup_get. by rewrite Hlookup, Hrows.
  - intros Hd. apply processData_total; [done|]. rewrite Hrows. constructor.
Qed.

Lemma malformed_reviews_as_empty_witness :
  returned (processData dataLoader rng_zero [row_a; row_b]
              (YelpScalar VNull eq_refl))
  = returned (processData dataLoader rng_zero [row_a; row_b] (YelpArray [])).
Proof.
  apply (malformed_reviews_as_empty dataLoader rng_zero [row_a; row_b]
           (YelpScalar VNull eq_refl)).
  intros rows. discriminate.
Defined.

(** ** The review count *)

(** A row in the table is one of the rows the table was built from. *)
Lemma build_lookup_values rows m m' k r :
  build_lookup rows m = Ok m' → m' !! k = Some r →
  m !! k = Some r ∨ r ∈ rows.
Proof.
  intros Hm' Hr. rewrite (build_lookup_Ok _ _ _ Hm') in Hr.
  destruct (m !! k); [by left|]. right.
  apply list_elem_of_In. by eapply find_some.
Qed.

(** C10.  The synthesis step of the pipeline replaces [num_of_reviews] by
    the synthesized count exactly in the review rows whose [avg_rating] is
    falsy (absent, 0, the empty string, ...), whatever count the row
    carried: the row at the same position of the array after the call
    holds the synthesized count.  A row whose [avg_rating] is truthy is
    left as it is, so a missing [num_of_reviews] stays missing.  The
    review row a returned row is matched with is such a row of the array
    after the call: it has no count when it came rated and without one,
    and the synthesized count when it came unrated. *)
Theorem review_count_follows_rating (this : DataLoader) (g : rng)
    (dinesafeJson rows : list object) (i : nat) (d : object) :
  rows !! i = Some d →
  ∃ rows' d',
    yelp_after (processData this g dinesafeJson (YelpArray rows))
    = YelpArray rows'
    ∧ rows' !! i = Some d'
    ∧ (truthy (get d "avg_rating") = false →
         get d' "num_of_reviews"
         = synth_reviews (if truthy (get d "Restaurant Name")
                          then length_of (get d "Restaurant Name")
                          else Some 10))
    ∧ (get d "avg_rating" = VUndefined ∨ get d "avg_rating" = of_Z 0
       ∨ get d "avg_rating" = VStr "" →
       truthy (get d "avg_rating") = false)
    ∧ (truthy (get d "avg_rating") = true →
         d' = d
         ∧ (d !! "num_of_reviews" = None → d' !! "num_of_reviews" = None))
    ∧ (∀ out e r,
         returned (processData this g dinesafeJson (YelpArray rows)) = Ok out →
         e ∈ out → yelpMatch e = YObj r →
         ∃ j r0,
           rows !! j = Some r0 ∧ rows' !! j = Some r
           ∧ (truthy (get r0 "avg_rating") = true →
              r0 !! "num_of_reviews" = None → r !! "num_of_reviews" = None)
           ∧ (truthy (get r0 "avg_rating") = false →
              get r "num_of_reviews"
              = synth_reviews (length_of (get r0 "Restaurant Name")))).
Proof.
  intros Hi. exists (synthesize <$> rows), (synthesize d).
  split; [apply processData_yelp_after|].
  split; [by rewrite list_lookup_fmap, Hi|].
  split; [|split; [|split]].
  - intros Hd. rewrite (synthesize_falsy d Hd). apply get_insert_eq.
  - by intros [-> | [-> | ->]].
  - intros Hd. rewrite (synthesize_truthy d Hd). done.
  - intros out e r Hout He Hr.
    destruct (matched_row_position _ _ _ _ _ _ _ Hout He Hr)
      as (j & r0 & Hj & -> & Hname).
    exists j, r0. split; [done|].
    split; [by rewrite list_lookup_fmap, Hj|]. split.
    + intros Hr0. by rewrite (synthesize_truthy r0 Hr0).
    + intros Hr0. rewrite (synthesize_falsy r0 Hr0), Hname.
      apply get_insert_eq.
Qed.

Lemma review_count_follows_rating_witness :
  ∃ rows' d',
    yelp_after
      (processData dataLoader rng_zero [row_a]
         (YelpArray [ {[ "Restaurant Name" := VStr "Cafe";
                         "avg_rating" := VStr "";
                         "num_of_reviews" := VStr "250" ]} ]))
    = YelpArray rows'
    ∧ rows' !! 0 = Some d'
    ∧ get d' "num_of_reviews" = of_Z 9.
Proof.
  destruct (review_count_follows_rating dataLoader rng_zero [row_a]
              [ {[ "Restaurant Name" := VStr "Cafe";
                   "avg_rating" := VStr "";
                   "num_of_reviews" := VStr "250" ]} ]
              0
              {[ "Restaurant Name" := VStr "Cafe";
                 "avg_rating" := VStr "";
                 "num_of_reviews" := VStr "250" ]} eq_refl)
    as (rows' & d' & Hafter & Hd' & Hcount & _).
  exists rows', d'. split; [exact Hafter|]. split; [exact Hd'|].
  rewrite Hcount; reflexivity.
Defined.

(** A rated row without a count keeps no count. *)
Example rated_row_keeps_no_count :
  synthesize {[ "Restaurant Name" := VStr "Cafe"; "avg_rating" := VStr "4.5" ]}
  !! "num_of_reviews" = None.
Proof. reflexivity. Qed.

(** ** What the pipeline writes *)

(** C4, as the code has it.  The pipeline writes nothing into the
    inspection rows.  Of the review rows it writes [avg_rating] and
    [num_of_reviews] and nothing else, and only in rows whose [avg_rating]
    is falsy: a row with a truthy [avg_rating] is left as it was, every
    other property of every row keeps its value, and an argument that is
    not an array is left alone. *)
Theorem processData_writes_ratings_only (this : DataLoader) (g : rng)
    (dinesafeJson : list object) (yelpData : yelp_arg) :
  dinesafe_after (processData this g dinesafeJson yelpData) = dinesafeJson
  ∧ (∀ rows, yelpData = YelpArray rows →
       ∃ rows',
         yelp_after (processData this g dinesafeJson yelpData)
         = YelpArray rows'
         ∧ length rows' = length rows
         ∧ ∀ i r, rows !! i = Some r →
             ∃ r', rows' !! i = Some r'
                   ∧ (truthy (get r "avg_rating") = true → r' = r)
                   ∧ ∀ k, k ≠ "avg_rating" → k ≠ "num_of_reviews" →
                          r' !! k = r !! k)
  ∧ ((∀ rows, yelpData ≠ YelpArray rows) →
       yelp_after (processData this g dinesafeJson yelpData) = yelpData).
Proof.
  split; [apply processData_dinesafe_after|].
  rewrite processData_yelp_after. split.
  - intros rows ->. exists (synthesize <$> rows).
    split; [done|]. split; [apply length_fmap|].
    intros i r Hi. exists (synthesize r). rewrite list_lookup_fmap, Hi.
    split; [done|]. split.
    + apply synthesize_truthy.
    + intros k. apply synthesize_other.
  - intros Hna. destruct yelpData; [|done..]. by destruct (Hna rows).
Qed.

Lemma processData_writes_ratings_only_witness :
  ∃ rows',
    yelp_after (processData dataLoader rng_zero [row_a]
                  (YelpArray [review_cafe])) = YelpArray rows'
    ∧ ∃ r', rows' !! 0 = Some r'
            ∧ r' !! "Restaurant Name" = review_cafe !! "Restaurant Name".
Proof.
  destruct (proj1 (proj2 (processData_writes_ratings_only dataLoader rng_zero
                            [row_a] (YelpArray [review_cafe])))
              [review_cafe] eq_refl)
    as (rows' & Hafter & _ & Hrows).
  exists rows'. split; [exact Hafter|].
  destruct (Hrows 0 review_cafe eq_refl) as (r' & Hr' & _ & Hother).
  exists r'. split; [exact Hr'|].
  apply Hother; discriminate.
Defined.

(** C4 on a review row without a rating: the row is not the same after the
    pipeline ran; it has been given a rating and a review count. *)
Lemma review_row_written_counterexample :
  get review_cafe "avg_rating" = VUndefined
  ∧ yelp_after (processData dataLoader rng_zero [] (YelpArray [review_cafe]))
    = YelpArray [ <["num_of_reviews" := of_Z 9]>
                    (<["avg_rating" := VStr "3.4"]> review_cafe) ]
  ∧ yelp_after (processData dataLoader rng_zero [] (YelpArray [review_cafe]))
    ≠ YelpArray [review_cafe].
Proof.
  split; [reflexivity|]. split; [reflexivity|].
  intros H. vm_compute in H. discriminate H.
Qed.

(** ** Determinism *)

Lemma processData_within_bound this g1 g2 d y :
  within_bound this d →
  returned (processData this g1 d y) = returned (processData this g2 d y).
Proof.
  intros Hb. by rewrite !processData_returned, !sampled_within_bound.
Qed.

(** C3, as the code has it.  When the restaurants of the inspection dataset
    fit in the sample bound (or sampling is switched off), two runs of the
    pipeline on the same raw datasets return the same sequence whatever
    [Math.random] returns, and so do a first load that fetches the files
    and a second load in the session the first one left behind, whether or
    not the first one managed to cache its inputs. *)
Theorem deterministic_within_bound {G : Type} (this : DataLoader) (geo : G)
    (dinesafeJson yelpData : list object) (writes1 writes2 : nat)
    (g1 g2 : rng) :
  within_bound this dinesafeJson →
  returned (processData this g1 dinesafeJson (YelpArray yelpData))
  = returned (processData this g2 dinesafeJson (YelpArray yelpData))
  ∧ resolved (loadData this empty_session (geo, dinesafeJson, yelpData)
                writes1 g1)
    = resolved
        (loadData this
           (session_after
              (loadData this empty_session (geo, dinesafeJson, yelpData)
                 writes1 g1))
           (geo, dinesafeJson, yelpData) writes2 g2).
Proof.
  intros Hb. split; [by apply processData_within_bound|].
  destruct writes1 as [|[|[|w]]]; simpl;
    by rewrite (processData_within_bound this g1 g2).
Qed.

Lemma deterministic_within_bound_witness :
  returned (processData dataLoader rng_zero [row_a; row_b]
              (YelpArray [review_cafe]))
  = returned (processData dataLoader rng_half_first [row_a; row_b]
                (YelpArray [review_cafe])).
Proof.
  apply (deterministic_within_bound dataLoader tt [row_a; row_b]
           [review_cafe] 3 3 rng_zero rng_half_first).
  right. vm_compute. discriminate.
Defined.

(** The second load reads the cache the first one filled. *)
Example second_load_reads_cache :
  cachedYelpData
    (session_after
       (loadData dataLoader empty_session (tt, [row_a], [review_cafe]) 3
          rng_zero))
  = Some [review_cafe].
Proof. reflexivity. Qed.

Lemma many_restaurants_wf :
  Forall (λ r, inspection_wf r = true) many_restaurants.
Proof. constructor; [done|]. by apply Forall_replicate. Qed.

Lemma many_restaurants_all :
  restaurants dataLoader many_restaurants = many_restaurants.
Proof.
  apply bfilter_all. constructor; [done|]. by apply Forall_replicate.
Qed.

Lemma many_restaurants_length :
  Z.of_nat (length many_restaurants) = 15001%Z.
Proof.
  change (Z.of_nat (S (length (replicate (Z.to_nat 15000) row_b))) = 15001%Z).
  rewrite length_replicate. lia.
Qed.

Lemma many_restaurants_first g :
  sampled dataLoader g many_restaurants !! 0
  = many_restaurants !! floor_scaled (g 0) (length many_restaurants).
Proof.
  unfold sampled. rewrite many_restaurants_all.
  apply randomSample_first. rewrite many_restaurants_length. lia.
Qed.

(** With the generator that always returns 0 the first row stays first. *)
Lemma many_restaurants_first_zero :
  sampled dataLoader rng_zero many_restaurants !! 0 = Some row_a.
Proof. rewrite many_restaurants_first. done. Qed.

(** With 1/2 as the first sample the row in the middle comes first. *)
Lemma many_restaurants_first_half :
  sampled dataLoader rng_half_first many_restaurants !! 0 = Some row_b.
Proof.
  rewrite many_restaurants_first.
  pose proof many_restaurants_length as Hlen.
  assert (1 ≤ floor_scaled (rng_half_first 0) (length many_restaurants)
          < length many_restaurants) as Hj.
  { split; [|apply floor_scaled_lt; lia].
    unfold floor_scaled. simpl num. simpl den.
    apply Nat.div_le_lower_bound; lia. }
  destruct (floor_scaled _ _) as [|j]; [lia|].
  change (replicate (Z.to_nat 15000) row_b !! j = Some row_b).
  apply lookup_replicate_2. lia.
Qed.

(** C3 with more restaurants than the bound: with 15001 restaurants the
    default bound of 15000 makes the pipeline draw a sample, and two runs
    on the same datasets whose generators differ return different
    sequences. *)
Lemma random_sample_counterexample :
  returned (processData dataLoader rng_zero many_restaurants (YelpArray []))
  ≠ returned (processData dataLoader rng_half_first many_restaurants
                (YelpArray [])).
Proof.
  destruct (processData_total dataLoader rng_zero many_restaurants
              (YelpArray [])) as [out1 Hout1];
    [apply many_restaurants_wf | constructor |].
  destruct (processData_total dataLoader rng_half_first many_restaurants
              (YelpArray [])) as [out2 Hout2];
    [apply many_restaurants_wf | constructor |].
  destruct (processData_first _ _ _ _ _ _ Hout1 many_restaurants_first_zero)
    as (e1 & Hfirst1 & He1); [done|].
  destruct (processData_first _ _ _ _ _ _ Hout2 many_restaurants_first_half)
    as (e2 & Hfirst2 & He2); [done|].
  rewrite Hout1, Hout2. intros [= ->].
  rewrite Hfirst1 in Hfirst2. injection Hfirst2 as ->.
  assert (get row_a "Establishment Name" = get row_b "Establishment Name")
    as Hname by congruence.
  discriminate Hname.
Qed.

(** * Further properties *)

(** ** Scoring and grading together *)

Lemma status_deduction_cases restaurant :
  status_deduction restaurant = 0%Z ∨ status_deduction restaurant = 30%Z
  ∨ status_deduction restaurant = 100%Z.
Proof. unfold status_deduction. repeat case_decide; auto. Qed.

Lemma severity_deduction_cases restaurant :
  severity_deduction restaurant = 0%Z ∨ severity_deduction restaurant = 10%Z
  ∨ severity_deduction restaurant = 20%Z
  ∨ severity_deduction restaurant = 40%Z.
Proof.
  unfold severity_deduction.
  repeat (match goal with |- context [if ?b then _ else _] => destruct b end);
    auto.
Qed.

(** Whatever can be searched is searched without an exception. *)
Lemma searchable_includes v sub :
  searchable v = true → ∃ b, includes (js_or v (VStr "")) sub = Ok b.
Proof.
  unfold searchable, js_or.
  destruct v as [| |b|n|s|l]; simpl; try (by eexists);
    rewrite ?orb_false_r; try (intros ->%negb_true_iff; by eexists).
  destruct (String.eqb s ""); by eexists.
Qed.

(** Both scans in terms of what the three searches find. *)
Lemma scans_by_includes restaurant (c s m : bool) :
  includes (js_or (get restaurant "Severity") (VStr "")) "C - Crucial" = Ok c →
  includes (js_or (get restaurant "Severity") (VStr "")) "S - Significant"
  = Ok s →
  includes (js_or (get restaurant "Severity") (VStr "")) "M - Minor" = Ok m →
  getWorstSeverity restaurant
  = Ok (if c then "C" else if s then "S" else if m then "M" else "clean")
  ∧ calculateHealthScore restaurant
    = Ok (Z.max 0 (100 - status_deduction restaurant
                       - (if c then 40 else if s then 20
                          else if m then 10 else 0))).
Proof.
  intros Hc Hs Hm.
  unfold getWorstSeverity, calculateHealthScore, status_deduction.
  rewrite Hc, Hs, Hm, !strict_eq_str_decide. simpl.
  split; [by destruct c, s, m|].
  repeat case_bool_decide; repeat case_decide; try congruence;
    destruct c, s, m; simpl; f_equal; lia.
Qed.



(** An array that holds the crucial mark scores 60 with worst severity
    "C"; a text inside a longer element is not found. *)
Example severity_array_scores :
  calculateHealthScore {[ "Severity" := VArr [VStr "C - Crucial"] ]} = Ok 60%Z
  ∧ getWorstSeverity {[ "Severity" := VArr [VStr "C - Crucial"] ]} = Ok "C"
  ∧ calculateHealthScore {[ "Severity" := VArr [VStr "C - Crucial: pests"] ]}
    = Ok 100%Z.
Proof. repeat split. Qed.

(** X2.  The score of a row is one of 0, 30, 50, 60, 70, 80, 90, 100, and
    its grade follows from the two deductions: A exactly for a status that
    costs nothing with at most a minor infraction, B exactly for such a
    status with a significant one, C exactly for such a status with a
    crucial one or for "Conditional Pass" with at most a minor one, and D
    otherwise, in particular for every "Closed" row. *)
Theorem grade_by_status_and_severity (restaurant : object) :
  text_or_falsy (get restaurant "Severity") = true →
  ∃ score,
    calculateHealthScore restaurant = Ok score
    ∧ score ∈ [0; 30; 50; 60; 70; 80; 90; 100]%Z
    ∧ (getHealthGrade score = "A"
       ↔ status_deduction restaurant = 0%Z
         ∧ (severity_deduction restaurant ≤ 10)%Z)
    ∧ (getHealthGrade score = "B"
       ↔ status_deduction restaurant = 0%Z
         ∧ severity_deduction restaurant = 20%Z)
    ∧ (getHealthGrade score = "C"
       ↔ (status_deduction restaurant = 0%Z
          ∧ severity_deduction restaurant = 40%Z)
         ∨ (status_deduction restaurant = 30%Z
            ∧ (severity_deduction restaurant ≤ 10)%Z))
    ∧ (get restaurant "Establishment Status" = VStr "Closed" →
       getHealthGrade score = "D").
Proof.
  intros Htext. rewrite (calculateHealthScore_text _ Htext).
  eexists. split; [reflexivity|].
  assert (get restaurant "Establishment Status" = VStr "Closed" →
          status_deduction restaurant = 100%Z) as Hclosed.
  { intros H. unfold status_deduction. by rewrite decide_True. }
  destruct (status_deduction_cases restaurant) as [Hs|[Hs|Hs]],
    (severity_deduction_cases restaurant) as [Hv|[Hv|[Hv|Hv]]];
    rewrite Hs, Hv in *; simpl;
    (split; [set_solver|]);
    repeat split; try (intros; (discriminate || lia)); try done;
    try (intros [[? ?]|[? ?]]; (discriminate || lia));
    try (intros H; specialize (Hclosed H); discriminate);
    auto.
Qed.

Lemma grade_by_status_and_severity_witness :
  ∃ score,
    calculateHealthScore {[ "Establishment Status" := VStr "Pass";
                            "Severity" := VStr "C - Crucial" ]} = Ok score
    ∧ getHealthGrade score = "C".
Proof.
  destruct (grade_by_status_and_severity
              {[ "Establishment Status" := VStr "Pass";
                 "Severity" := VStr "C - Crucial" ]})
    as (score & Hscore & _ & _ & _ & HC & _); [reflexivity|].
  exists score. split; [exact Hscore|].
  apply HC. left. split; reflexivity.
Defined.

(** ** Longer severity texts *)

Lemma prefix_app sub s t :
  String.prefix sub s = true → String.prefix sub (s +:+ t) = true.
Proof.
  revert s. induction sub as [|a sub IH]; intros s;
    [by destruct (s +:+ t)|].
  destruct s as [|b s]; simpl; [discriminate|].
  destruct (ascii_dec a b); [apply IH | discriminate].
Qed.

Lemma str_includes_unfold s sub :
  str_includes s sub
  = String.prefix sub s
    || match s with
       | EmptyString => false
       | String _ s' => str_includes s' sub
       end.
Proof. by destruct s. Qed.

Lemma str_includes_app_r s t sub :
  str_includes s sub = true → str_includes (s +:+ t) sub = true.
Proof.
  induction s as [|c s IH]; rewrite str_includes_unfold;
    intros [H|H]%orb_true_iff; try done.
  - apply (prefix_app _ _ t) in H.
    rewrite str_includes_unfold. by rewrite H.
  - apply (prefix_app _ _ t) in H.
    rewrite str_includes_unfold. by rewrite H.
  - rewrite str_includes_unfold.
    change (String c s +:+ t) with (String c (s +:+ t)). cbv beta iota.
    rewrite (IH H). apply orb_true_r.
Qed.

Lemma str_includes_app_l s t sub :
  str_includes s sub = true → str_includes (t +:+ s) sub = true.
Proof.
  intros H. induction t as [|c t IH]; [done|].
  rewrite str_includes_unfold.
  change (String c t +:+ s) with (String c (t +:+ s)). cbv beta iota.
  rewrite IH. apply orb_true_r.
Qed.

Lemma severity_deduction_longer r r' s before after :
  get r "Severity" = VStr s →
  get r' "Severity" = VStr (before +:+ s +:+ after) →
  (severity_deduction r ≤ severity_deduction r')%Z.
Proof.
  intros Hr Hr'. unfold severity_deduction. rewrite Hr, Hr'. simpl.
  assert (∀ sub, str_includes s sub = true →
                 str_includes (before +:+ s +:+ after) sub = true) as Hlonger.
  { intros sub H. by apply str_includes_app_l, str_includes_app_r. }
  set (long := before +:+ s +:+ after) in *.
  destruct (str_includes s "C - Crucial") eqn:Hc.
  { rewrite (Hlonger _ Hc). lia. }
  destruct (str_includes s "S - Significant") eqn:Hs.
  { rewrite (Hlonger _ Hs).
    destruct (str_includes long "C - Crucial"); lia. }
  destruct (str_includes s "M - Minor") eqn:Hm.
  { rewrite (Hlonger _ Hm).
    destruct (str_includes long "C - Crucial"); [lia|].
    destruct (str_includes long "S - Significant"); lia. }
  destruct (str_includes long "C - Crucial"); [lia|].
  destruct (str_includes long "S - Significant"); [lia|].
  destruct (str_includes long "M - Minor"); lia.
Qed.

(** X3.  More infraction text never raises the score: of two rows with the
    same status, the one whose severity text contains the other's as a
    part scores at most as much. *)
Theorem longer_severity_scores_lower (r r' : object) (s before after : string) :
  get r "Establishment Status" = get r' "Establishment Status" →
  get r "Severity" = VStr s →
  get r' "Severity" = VStr (before +:+ s +:+ after) →
  ∃ score score',
    calculateHealthScore r = Ok score
    ∧ calculateHealthScore r' = Ok score'
    ∧ (score' ≤ score)%Z.
Proof.
  intros Hstatus Hr Hr'.
  rewrite (calculateHealthScore_text r) by (by rewrite Hr).
  rewrite (calculateHealthScore_text r') by (by rewrite Hr').
  eexists _, _. split; [done|]. split; [done|].
  pose proof (severity_deduction_longer _ _ _ _ _ Hr Hr').
  assert (status_deduction r = status_deduction r') as ->.
  { unfold status_deduction. by rewrite Hstatus. }
  lia.
Qed.

Lemma longer_severity_scores_lower_witness :
  ∃ score score',
    calculateHealthScore {[ "Severity" := VStr "M - Minor" ]} = Ok score
    ∧ calculateHealthScore
        {[ "Severity" := VStr "C - Crucial; M - Minor; cleaned" ]} = Ok score'
    ∧ (score' ≤ score)%Z.
Proof.
  apply (longer_severity_scores_lower
           {[ "Severity" := VStr "M - Minor" ]}
           {[ "Severity" := VStr "C - Crucial; M - Minor; cleaned" ]}
           "M - Minor" "C - Crucial; " "; cleaned"); reflexivity.
Defined.

(** ** More on sampling *)

Lemma shuffle_loop_rng {A} remaining i g (l : list A) k :
  (shuffle_loop remaining i g l).2 k = g (remaining + k).
Proof.
  revert i g l. induction remaining as [|n IH]; intros i g l; simpl; [done|].
  by rewrite IH.
Qed.

(** X4.  Sampling consumes one [Math.random] sample per element it returns:
    after drawing [sampleSize] elements from a longer array the generator
    is [sampleSize] samples further, and when the array is returned whole
    it has not been touched. *)
Theorem randomSample_draws {A} (g : rng) (array : list A)
    (sampleSize : option Z) :
  (∀ s, sampleSize = Some s → (0 < s < Z.of_nat (length array))%Z →
        ∀ k, (randomSample g array sampleSize).2 k = g (Z.to_nat s + k))
  ∧ (sampleSize = None ∨ sampleSize = Some 0%Z
     ∨ (∃ s, sampleSize = Some s ∧ (Z.of_nat (length array) ≤ s)%Z) →
     (randomSample g array sampleSize).2 = g).
Proof.
  split.
  - intros s -> Hs k. rewrite randomSample_draw by done. simpl.
    apply shuffle_loop_rng.
  - intros [->|[->|(s & -> & Hs)]]; [done..|]. by rewrite randomSample_all.
Qed.

Lemma randomSample_draws_witness :
  (randomSample rng_half_first [10; 20; 30] (Some 2%Z)).2 0
  = rng_half_first 2.
Proof.
  apply (proj1 (randomSample_draws rng_half_first [10; 20; 30] (Some 2%Z))
           2%Z eq_refl).
  simpl. lia.
Defined.

Lemma swap_same {A} (l : list A) i : swap l i i = l.
Proof.
  unfold swap. destruct (l !! i) as [x|] eqn:Hi; [|done].
  by rewrite list_insert_insert_eq, list_insert_id.
Qed.

Lemma shuffle_loop_zero {A} remaining i (g : rng) (l : list A) :
  (∀ k, k < remaining → num (g k) = 0) →
  (shuffle_loop remaining i g l).1 = l.
Proof.
  revert i g l. induction remaining as [|n IH]; intros i g l Hg; simpl;
    [done|].
  unfold floor_scaled. rewrite (Hg 0) by lia. simpl.
  rewrite Nat.Div0.div_0_l, Nat.add_0_r, swap_same.
  apply IH. intros k Hk. apply (Hg (S k)). lia.
Qed.

(** X6.  When every sample drawn is zero, each element is swapped with
    itself and the sample is the first [sampleSize] elements of the array,
    in their order. *)
Theorem randomSample_zero_draws {A} (g : rng) (array : list A) (s : Z) :
  (0 < s < Z.of_nat (length array))%Z →
  (∀ k, k < Z.to_nat s → num (g k) = 0) →
  (randomSample g array (Some s)).1 = take (Z.to_nat s) array.
Proof.
  intros Hs Hg. rewrite randomSample_draw by done. simpl.
  by rewrite shuffle_loop_zero.
Qed.

Lemma randomSample_zero_draws_witness :
  (randomSample rng_zero [10; 20; 30] (Some 2%Z)).1 = [10; 20].
Proof.
  apply (randomSample_zero_draws rng_zero [10; 20; 30] 2%Z).
  - simpl. lia.
  - reflexivity.
Defined.

(** X7.  A negative bound draws nothing: the loop does not run and
    [slice(0, sampleSize)] cuts that many elements off the end of the
    array (all of them when the array is shorter), leaving the rest in
    order. *)
Theorem randomSample_negative_bound {A} (g : rng) (array : list A) (s : Z) :
  (s < 0)%Z →
  randomSample g array (Some s)
  = (take (length array - Z.to_nat (- s)) array, g).
Proof.
  intros Hs. unfold randomSample.
  destruct (Z.eqb_spec s 0); [lia|].
  destruct (Z.leb_spec (Z.of_nat (length array)) s); [lia|]. simpl.
  replace (Z.to_nat s) with 0 by lia. simpl.
  unfold slice0. destruct (Z.ltb_spec s 0); [|lia].
  do 2 f_equal. lia.
Qed.

Lemma randomSample_negative_bound_witness :
  randomSample rng_zero [10; 20; 30] (Some (-1)%Z) = ([10; 20], rng_zero).
Proof.
  apply (randomSample_negative_bound rng_zero [10; 20; 30] (-1)%Z). lia.
Defined.

(** ** More on the pipeline *)

Lemma set_has_Some (s : gset string) v :
  set_has s v = true → ∃ t, v = VStr t ∧ t ∈ s.
Proof.
  destruct v as [| |b|n|t|l]; try done. simpl.
  intros Ht%bool_decide_eq_true. eauto.
Qed.

(** X8.  Only restaurants are returned: the establishment type of every
    returned row is a string of the allow-list, so a row of any other type
    (a supermarket, a row without a type) is never returned. *)
Theorem returned_rows_are_restaurants (this : DataLoader) (g : rng)
    (dinesafeJson : list object) (yelpData : yelp_arg)
    (out : list enriched) (e : enriched) :
  returned (processData this g dinesafeJson yelpData) = Ok out →
  e ∈ out →
  (∃ t, get (inherited e) "Establishment Type" = VStr t
        ∧ t ∈ RESTAURANT_TYPES this)
  ∧ (∀ d, d ∈ dinesafeJson →
          set_has (RESTAURANT_TYPES this) (get d "Establishment Type") = false →
          inherited e ≠ d).
Proof.
  intros (yelpLookup & merged & _ & Hmerged & ->)%processData_Ok He.
  destruct (returned_elem_of _ _ _ _ Hmerged He) as (_ & Hin & _).
  apply sampled_elem_of in Hin as [_ Htype]. split.
  - by apply set_has_Some.
  - intros d _ Hd Heq. rewrite Heq in Htype. congruence.
Qed.

Lemma returned_rows_are_restaurants_witness :
  ∃ t, get (inherited {| inherited := row_a; yelpMatch := YUndefined;
                         healthScore := 100; healthGrade := "A";
                         worstSeverity := "clean" |})
         "Establishment Type" = VStr t
       ∧ t ∈ RESTAURANT_TYPES dataLoader.
Proof.
  apply (returned_rows_are_restaurants dataLoader rng_zero
           [ {[ "Establishment Name" := VStr "Shop";
                "Establishment Type" := VStr "Supermarket";
                "Latitude" := VStr "43.6"; "Longitude" := VStr "-79.4" ]};
             row_a ]
           (YelpArray [])
           [ {| inherited := row_a; yelpMatch := YUndefined;
                healthScore := 100; healthGrade := "A";
                worstSeverity := "clean" |} ]).
  - reflexivity.
  - apply list_elem_of_singleton. reflexivity.
Defined.

Lemma sampled_length this g d s :
  SAMPLE_SIZE this = Some s → (0 < s)%Z →
  (Z.of_nat (length (sampled this g d)) ≤ s)%Z.
Proof.
  intros Hsize Hs. unfold sampled. rewrite Hsize.
  destruct (Z.le_gt_cases (Z.of_nat (length (restaurants this d))) s).
  - by rewrite randomSample_all.
  - rewrite randomSample_draw by lia. simpl.
    rewrite length_take, shuffle_loop_length. lia.
Qed.

Lemma bfilter_length {A} (f : A → bool) l : length (List.filter f l) ≤ length l.
Proof. induction l as [|x l IH]; simpl; [done|]. destruct (f x); simpl; lia. Qed.

(** X9.  The output is bounded: a positive sample bound bounds the number of
    returned rows (15000 for the loader as constructed), and there are never
    more returned rows than restaurants in the dataset. *)
Theorem returned_length_bounded (this : DataLoader) (g : rng)
    (dinesafeJson : list object) (yelpData : yelp_arg) (out : list enriched) :
  returned (processData this g dinesafeJson yelpData) = Ok out →
  length out ≤ length (restaurants this dinesafeJson)
  ∧ (∀ s, SAMPLE_SIZE this = Some s → (0 < s)%Z →
          (Z.of_nat (length out) ≤ s)%Z).
Proof.
  intros (yelpLookup & merged & _ & Hmerged & ->)%processData_Ok.
  pose proof (bfilter_length has_geo merged) as Hle.
  apply Forall2_length in Hmerged. split.
  - pose proof (submseteq_length _ _
      (randomSample_submseteq g (restaurants this dinesafeJson)
         (SAMPLE_SIZE this))) as Hsub.
    unfold sampled in Hmerged. lia.
  - intros s Hsize Hs.
    pose proof (sampled_length this g dinesafeJson s Hsize Hs). lia.
Qed.

Lemma returned_length_bounded_witness :
  (Z.of_nat (length [ {| inherited := row_a; yelpMatch := YUndefined;
                         healthScore := 100; healthGrade := "A";
                         worstSeverity := "clean" |} ]) ≤ 15000)%Z.
Proof.
  refine (proj2 (returned_length_bounded dataLoader rng_zero [row_a]
                   (YelpArray []) _ _) 15000%Z _ _).
  - reflexivity.
  - reflexivity.
  - lia.
Defined.

Lemma inherited_bfilter yelpLookup rows merged :
  Forall2 (λ x e, enrich yelpLookup x = Ok e) rows merged →
  inherited <$> List.filter has_geo merged
  = List.filter (λ d, truthy (get d "Latitude") && truthy (get d "Longitude"))
      rows.
Proof.
  induction 1 as [|x e rows merged Hxe _ IH]; [done|].
  destruct (enrich_Ok _ _ _ Hxe) as [Hin _].
  cbn [List.filter]. unfold has_geo at 1. rewrite truthy_js_and, Hin.
  destruct (_ && _); [|exact IH].
  by rewrite fmap_cons, IH, Hin.
Qed.

Lemma bfilter_bfilter {A} (f h : A → bool) l :
  List.filter f (List.filter h l) = List.filter (λ x, h x && f x) l.
Proof.
  induction l as [|x l IH]; simpl; [done|].
  destruct (h x); simpl; [|done]. destruct (f x); by rewrite IH.
Qed.

(** X10.  The pipeline keeps rows in order: the inspection rows behind the
    returned rows are the sampled rows that have coordinates, in the order
    of the sample; when no sampling takes place they are the restaurants
    of the dataset that have coordinates, in the order of the dataset. *)
Theorem returned_rows_in_order (this : DataLoader) (g : rng)
    (dinesafeJson : list object) (yelpData : yelp_arg) (out : list enriched) :
  returned (processData this g dinesafeJson yelpData) = Ok out →
  inherited <$> out
  = List.filter (λ d, truthy (get d "Latitude") && truthy (get d "Longitude"))
      (sampled this g dinesafeJson)
  ∧ (within_bound this dinesafeJson →
     inherited <$> out
     = List.filter
         (λ d, set_has (RESTAURANT_TYPES this) (get d "Establishment Type")
               && (truthy (get d "Latitude") && truthy (get d "Longitude")))
         dinesafeJson).
Proof.
  intros (yelpLookup & merged & _ & Hmerged & ->)%processData_Ok.
  rewrite (inherited_bfilter _ _ _ Hmerged). split; [done|].
  intros Hb. rewrite sampled_within_bound by done. unfold restaurants.
  apply bfilter_bfilter.
Qed.

Lemma returned_rows_in_order_witness :
  inherited <$> [ {| inherited := row_a; yelpMatch := YUndefined;
                     healthScore := 100; healthGrade := "A";
                     worstSeverity := "clean" |};
                  {| inherited := row_b; yelpMatch := YUndefined;
                     healthScore := 100; healthGrade := "A";
                     worstSeverity := "clean" |} ]
  = List.filter (λ d, truthy (get d "Latitude") && truthy (get d "Longitude"))
      (sampled dataLoader rng_zero
         [row_a; restaurant_row "D" "" "-79.4"; row_b]).
Proof.
  refine (proj1 (returned_rows_in_order dataLoader rng_zero
                   [row_a; restaurant_row "D" "" "-79.4"; row_b]
                   (YelpArray []) _ _)).
  reflexivity.
Defined.

Lemma worstSeverity_values restaurant w :
  getWorstSeverity restaurant = Ok w → w ∈ ["C"; "S"; "M"; "clean"].
Proof.
  unfold getWorstSeverity. intros H.
  inv_bind H as c Hc. destruct c; [injection H as <-; set_solver|].
  inv_bind H as s Hs. destruct s; [injection H as <-; set_solver|].
  inv_bind H as m Hm. destruct m; injection H as <-; set_solver.
Qed.

Lemma calculateHealthScore_range restaurant score :
  calculateHealthScore restaurant = Ok score → (0 ≤ score ≤ 100)%Z.
Proof.
  destruct (searchable (get restaurant "Severity")) eqn:Hsev.
  - destruct (searchable_includes _ "C - Crucial" Hsev) as [c Hc].
    destruct (searchable_includes _ "S - Significant" Hsev) as [s Hs].
    destruct (searchable_includes _ "M - Minor" Hsev) as [m Hm].
    destruct (scans_by_includes restaurant c s m Hc Hs Hm) as [_ ->].
    intros [= <-]. pose proof (status_deduction_range restaurant).
    destruct c, s, m; lia.
  - by rewrite (calculateHealthScore_not_text _ Hsev).
Qed.

(** X11.  The added properties of a returned row belong together: the
    score is the health score of the row it was copied from and lies
    between 0 and 100, the grade is the grade of that score, the worst
    severity is one of "C", "S", "M", "clean" and is the one of that row,
    and [yelpMatch] is [null] exactly when the row has no truthy name. *)
Theorem returned_row_fields (this : DataLoader) (g : rng)
    (dinesafeJson : list object) (yelpData : yelp_arg)
    (out : list enriched) (e : enriched) :
  returned (processData this g dinesafeJson yelpData) = Ok out →
  e ∈ out →
  calculateHealthScore (inherited e) = Ok (healthScore e)
  ∧ (0 ≤ healthScore e ≤ 100)%Z
  ∧ healthGrade e = getHealthGrade (healthScore e)
  ∧ getWorstSeverity (inherited e) = Ok (worstSeverity e)
  ∧ worstSeverity e ∈ ["C"; "S"; "M"; "clean"]
  ∧ (yelpMatch e = YNull
     ↔ truthy (get (inherited e) "Establishment Name") = false).
Proof.
  intros (yelpLookup & merged & _ & Hmerged & ->)%processData_Ok He.
  destruct (returned_elem_of _ _ _ _ Hmerged He) as (_ & _ & Henrich).
  destruct (enrich_Ok _ _ _ Henrich) as (_ & Hmatch & Hscore & Hgrade & Hw).
  split; [done|]. split; [by eapply calculateHealthScore_range|].
  split; [done|]. split; [done|]. split; [by eapply worstSeverity_values|].
  rewrite Hmatch. destruct (truthy _); [|done].
  unfold lookup_get. by destruct (yelpLookup !! _).
Qed.

Lemma returned_row_fields_witness :
  healthGrade {| inherited := row_a; yelpMatch := YUndefined;
                 healthScore := 100; healthGrade := "A";
                 worstSeverity := "clean" |}
  = getHealthGrade 100.
Proof.
  refine (proj1 (proj2 (proj2 (returned_row_fields dataLoader rng_zero [row_a]
                                 (YelpArray []) _ _ _ _)))).
  - reflexivity.
  - apply list_elem_of_singleton. reflexivity.
Defined.

(** X12.  A second run on the review rows the first run left behind finds
    nothing to synthesize: it leaves the rows as they are and, with the
    same samples from [Math.random], returns what the first run returned. *)
Theorem second_run_changes_nothing (this : DataLoader) (g : rng)
    (dinesafeJson rows : list object) :
  yelp_after
    (processData this g dinesafeJson
       (yelp_after (processData this g dinesafeJson (YelpArray rows))))
  = yelp_after (processData this g dinesafeJson (YelpArray rows))
  ∧ returned
      (processData this g dinesafeJson
         (yelp_after (processData this g dinesafeJson (YelpArray rows))))
    = returned (processData this g dinesafeJson (YelpArray rows)).
Proof.
  assert (synthesize <$> (synthesize <$> rows) = synthesize <$> rows) as Hidem.
  { rewrite <-list_fmap_compose. apply list_fmap_ext.
    intros _ r _. apply synthesize_idempotent. }
  rewrite (processData_yelp_after this g dinesafeJson (YelpArray rows)).
  rewrite processData_yelp_after, !processData_returned. simpl.
  by rewrite Hidem.
Qed.

(** A synthesized row has a rating. *)
Lemma synthesize_has_rating d :
  truthy (get (synthesize d) "avg_rating") = true.
Proof.
  destruct (truthy (get d "avg_rating")) eqn:Hd.
  - by rewrite (synthesize_truthy d Hd).
  - rewrite (synthesize_falsy d Hd).
    rewrite get_insert_ne, get_insert_eq by done.
    destruct (if truthy _ then _ else _) as [n|]; [|done]. simpl.
    unfold toFixed1. by destruct (pretty _).
Qed.

(** A truthy name that was normalized has a key. *)
Lemma enrich_join_key yelpLookup d e :
  enrich yelpLookup d = Ok e →
  truthy (get d "Establishment Name") = true →
  join_key (get d "Establishment Name")
  = Some (normalize (text_of (get d "Establishment Name"))).
Proof.
  unfold enrich. intros H Htruthy. inv_bind H as m Hm.
  rewrite Htruthy in Hm. inv_bind Hm as key Hkey.
  pose proof (join_key_truthy _ _ Htruthy Hkey) as Hjoin.
  destruct (join_key_Some _ _ Hjoin) as (_ & <- & _). done.
Qed.

(** A matched review is a row of the table under the key of the name. *)
Lemma matched_review this g dinesafeJson yelpData out e r :
  returned (processData this g dinesafeJson yelpData) = Ok out →
  e ∈ out → yelpMatch e = YObj r →
  ∃ k r0, join_key (get (inherited e) "Establishment Name") = Some k
          ∧ List.find (has_key k) (rows_of yelpData) = Some r0
          ∧ r = synthesize r0.
Proof.
  intros (yelpLookup & merged & Hlookup & Hmerged & ->)%processData_Ok He Hr.
  destruct (returned_elem_of _ _ _ _ Hmerged He) as (_ & _ & Henrich).
  destruct (enrich_Ok _ _ _ Henrich) as (_ & Hmatch & _).
  rewrite Hr in Hmatch. destruct (truthy _) eqn:Htruthy; [|discriminate].
  unfold lookup_get in Hmatch. rewrite Hlookup in Hmatch.
  destruct (List.find _ _) as [r0|] eqn:Hfind; [|discriminate].
  injection Hmatch as ->. eexists _, r0.
  split; [by eapply enrich_join_key|done].
Qed.

(** X13.  A matched review always carries a rating: the review row in
    [yelpMatch] is a row of the review dataset as synthesis left it, and
    its [avg_rating] is truthy. *)
Theorem matched_review_has_rating (this : DataLoader) (g : rng)
    (dinesafeJson : list object) (yelpData : yelp_arg)
    (out : list enriched) (e : enriched) (r : object) :
  returned (processData this g dinesafeJson yelpData) = Ok out →
  e ∈ out → yelpMatch e = YObj r →
  truthy (get r "avg_rating") = true
  ∧ ∃ r0, r0 ∈ rows_of yelpData ∧ r = synthesize r0.
Proof.
  intros Hout He Hr.
  destruct (matched_review _ _ _ _ _ _ _ Hout He Hr)
    as (k & r0 & _ & Hfind & ->).
  split; [apply synthesize_has_rating|]. exists r0. split; [|done].
  apply list_elem_of_In. by eapply find_some.
Qed.

(** X14.  The join never pairs different names: a matched review has a
    non-empty name whose normalized form is the normalized name of the
    inspection row. *)
Theorem matched_review_same_name (this : DataLoader) (g : rng)
    (dinesafeJson : list object) (yelpData : yelp_arg)
    (out : list enriched) (e : enriched) (r : object) :
  returned (processData this g dinesafeJson yelpData) = Ok out →
  e ∈ out → yelpMatch e = YObj r →
  ∃ k, join_key (get (inherited e) "Establishment Name") = Some k
       ∧ join_key (get r "Restaurant Name") = Some k.
Proof.
  intros Hout He Hr.
  destruct (matched_review _ _ _ _ _ _ _ Hout He Hr)
    as (k & r0 & Hk & Hfind & ->).
  exists k. split; [done|].
  apply find_some in Hfind as [_ Hkey]. rewrite synthesize_name.
  unfold has_key in Hkey. by apply bool_decide_eq_true in Hkey.
Qed.

Lemma matched_review_has_rating_witness :
  truthy (get (synthesize review_cafe) "avg_rating") = true.
Proof.
  refine (proj1 (matched_review_has_rating dataLoader rng_zero
                   [restaurant_row " CAFE" "43.6" "-79.4"]
                   (YelpArray [review_cafe])
                   [ {| inherited := restaurant_row " CAFE" "43.6" "-79.4";
                        yelpMatch := YObj (synthesize review_cafe);
                        healthScore := 100; healthGrade := "A";
                        worstSeverity := "clean" |} ]
                   _ (synthesize review_cafe) _ _ _)).
  - reflexivity.
  - apply list_elem_of_singleton. reflexivity.
  - reflexivity.
Defined.

Lemma matched_review_same_name_witness :
  ∃ k, join_key (VStr " CAFE") = Some k
       ∧ join_key (get (synthesize review_cafe) "Restaurant Name") = Some k.
Proof.
  refine (matched_review_same_name dataLoader rng_zero
            [restaurant_row " CAFE" "43.6" "-79.4"]
            (YelpArray [review_cafe])
            [ {| inherited := restaurant_row " CAFE" "43.6" "-79.4";
                 yelpMatch := YObj (synthesize review_cafe);
                 healthScore := 100; healthGrade := "A";
                 worstSeverity := "clean" |} ]
            {| inherited := restaurant_row " CAFE" "43.6" "-79.4";
               yelpMatch := YObj (synthesize review_cafe);
               healthScore := 100; healthGrade := "A";
               worstSeverity := "clean" |}
            (synthesize review_cafe) _ _ _).
  - reflexivity.
  - apply list_elem_of_singleton. reflexivity.
  - reflexivity.
Defined.

(** ** When the pipeline raises *)

Lemma text_or_falsy_falsy v : truthy v = false → text_or_falsy v = true.
Proof. destruct v as [| |b|n|s|l]; simpl; try done; by intros ->. Qed.

Lemma text_or_falsy_trim v k : trim_toLowerCase v = Ok k → text_or_falsy v = true.
Proof. by destruct v. Qed.

Lemma index_review_wf_inv m r m' :
  index_review m r = Ok m' → review_wf r = true.
Proof.
  unfold index_review, review_wf. destruct (truthy _) eqn:Htruthy.
  - intros H. inv_bind H as key Hkey. by eapply text_or_falsy_trim.
  - intros _. by apply text_or_falsy_falsy.
Qed.

Lemma build_lookup_wf_inv rows m m' :
  build_lookup rows m = Ok m' → Forall (λ r, review_wf r = true) rows.
Proof.
  revert m. induction rows as [|r rows IH]; intros m; simpl; [constructor|].
  intros H. inv_bind H as m1 Hm1. constructor.
  - by eapply index_review_wf_inv.
  - by eapply IH.
Qed.

Lemma enrich_readable_inv yelpLookup d e :
  enrich yelpLookup d = Ok e → inspection_readable d = true.
Proof.
  intros H. destruct (enrich_Ok _ _ _ H) as (_ & _ & Hscore & _).
  unfold inspection_readable. apply andb_true_iff. split.
  - unfold enrich in H. inv_bind H as m Hm.
    destruct (truthy _) eqn:Htruthy; [|by apply text_or_falsy_falsy].
    inv_bind Hm as key Hkey. by eapply text_or_falsy_trim.
  - destruct (searchable (get d "Severity")) eqn:Hsev; [done|].
    by rewrite (calculateHealthScore_not_text _ Hsev) in Hscore.
Qed.

Lemma enrich_readable yelpLookup d :
  inspection_readable d = true → ∃ e, enrich yelpLookup d = Ok e.
Proof.
  intros [Hname Hsev]%andb_true_iff. unfold enrich.
  assert (∃ m, (if truthy (get d "Establishment Name")
                then key ← trim_toLowerCase (get d "Establishment Name");
                     mret (lookup_get yelpLookup key)
                else mret YNull) = Ok m) as [m ->].
  { destruct (truthy _) eqn:Htruthy; [|by eexists].
    destruct (text_or_falsy_normalizes _ Hname Htruthy) as [k ->].
    by eexists. }
  destruct (searchable_includes _ "C - Crucial" Hsev) as [c Hc].
  destruct (searchable_includes _ "S - Significant" Hsev) as [s Hs].
  destruct (searchable_includes _ "M - Minor" Hsev) as [m' Hm].
  destruct (scans_by_includes d c s m' Hc Hs Hm) as [-> ->].
  by eexists.
Qed.

(** X15.  The pipeline raises exactly on names it cannot normalize and
    severities it cannot search: it raises a TypeError when some review
    row has a truthy name that is not a string, or some sampled inspection
    row has such a name or a severity that is truthy and neither a string
    nor an array, and returns otherwise.  Rows that the type filter or the
    sample leaves out cannot make it raise. *)
Theorem processData_raises_iff (this : DataLoader) (g : rng)
    (dinesafeJson : list object) (yelpData : yelp_arg) :
  (returned (processData this g dinesafeJson yelpData) = TypeError
   ↔ Exists (λ r, review_wf r = false) (rows_of yelpData)
     ∨ Exists (λ d, inspection_readable d = false)
         (sampled this g dinesafeJson))
  ∧ ((∃ out, returned (processData this g dinesafeJson yelpData) = Ok out)
     ↔ Forall (λ r, review_wf r = true) (rows_of yelpData)
       ∧ Forall (λ d, inspection_readable d = true)
           (sampled this g dinesafeJson)).
Proof.
  assert ((∃ out, returned (processData this g dinesafeJson yelpData) = Ok out)
          ↔ Forall (λ r, review_wf r = true) (rows_of yelpData)
            ∧ Forall (λ d, inspection_readable d = true)
                (sampled this g dinesafeJson)) as Hok.
  { rewrite processData_returned. split.
    - intros [out H]. inv_bind H as yelpLookup Hlookup.
      inv_bind H as merged Hmerged. split.
      + apply build_lookup_wf_inv, Forall_fmap in Hlookup.
        eapply Forall_impl; [exact Hlookup|].
        intros r. simpl. by rewrite review_wf_synthesize.
      + apply mapM_Ok in Hmerged. apply Forall_forall. intros x Hx.
        apply list_elem_of_lookup in Hx as [i Hi].
        destruct (Forall2_lookup_l _ _ _ _ _ Hmerged Hi) as (e & _ & He).
        by eapply enrich_readable_inv.
    - intros [Hy Hd].
      destruct (build_lookup_total (synthesize <$> rows_of yelpData) ∅)
        as [yelpLookup ->].
      { apply Forall_fmap. eapply Forall_impl; [exact Hy|].
        intros r. simpl. by rewrite review_wf_synthesize. }
      destruct (mapM_total (enrich yelpLookup) (sampled this g dinesafeJson))
        as [merged Hmerged].
      { eapply Forall_impl; [exact Hd|]. intros x Hx.
        by apply enrich_readable. }
      simpl. rewrite Hmerged. by eexists. }
  split; [|done]. split.
  - intros Hraise.
    destruct (decide (Forall (λ r, review_wf r = true) (rows_of yelpData)))
      as [Hy|Hy].
    + destruct (decide (Forall (λ d, inspection_readable d = true)
                          (sampled this g dinesafeJson))) as [Hd|Hd].
      * destruct (proj2 Hok (conj Hy Hd)) as [out Hout]. congruence.
      * right. apply not_Forall_Exists in Hd; [|solve_decision].
        eapply Exists_impl; [exact Hd|]. intros x. simpl.
        by destruct (inspection_readable x).
    + left. apply not_Forall_Exists in Hy; [|solve_decision].
      eapply Exists_impl; [exact Hy|]. intros x. simpl.
      by destruct (review_wf x).
  - intros Hbad.
    destruct (returned (processData this g dinesafeJson yelpData)) as [out|]
      eqn:Hout; [|done].
    destruct (proj1 Hok (ex_intro _ out eq_refl)) as [Hy Hd].
    destruct Hbad as [Hbad|Hbad]; apply Exists_exists in Hbad as (x & Hx & Hwf).
    + eapply Forall_forall in Hy; [|exact Hx]. congruence.
    + eapply Forall_forall in Hd; [|exact Hx]. congruence.
Qed.

(** A numeric severity on a restaurant makes the pipeline raise; the same
    row as a supermarket does not, and neither does a restaurant whose
    severity is an array. *)
Example numeric_severity_raises :
  returned (processData dataLoader rng_zero
              [ <["Severity" := of_Z 3]> row_a ] (YelpArray [])) = TypeError
  ∧ returned (processData dataLoader rng_zero
                [ <["Establishment Type" := VStr "Supermarket"]>
                    (<["Severity" := of_Z 3]> row_a) ] (YelpArray []))
    = Ok []
  ∧ ∃ out,
      returned (processData dataLoader rng_zero
                  [ <["Severity" := VArr [VStr "C - Crucial"]]> row_a ]
                  (YelpArray [])) = Ok out
      ∧ healthScore <$> out = [60%Z].
Proof. split; [reflexivity|]. split; [reflexivity|]. by eexists. Qed.

(** ** The session cache *)

(** X16.  A load that finds the cache incomplete and manages all three
    writes leaves the three fetched files in the cache; every later load
    then works from the cache: it leaves the session as it is and returns
    what the cached files give, whatever files a fetch would deliver. *)
Theorem cache_serves_later_loads {G : Type} (this : DataLoader)
    (s : session G) (files1 files2 : G * list object * list object)
    (writes1 writes2 : nat) (g1 g2 : rng) :
  cachedGeoData s = None ∨ cachedDinesafeData s = None
  ∨ cachedYelpData s = None →
  3 ≤ writes1 →
  session_after (loadData this s files1 writes1 g1)
  = {| cachedGeoData := Some files1.1.1;
       cachedDinesafeData := Some files1.1.2;
       cachedYelpData := Some files1.2 |}
  ∧ session_after
      (loadData this (session_after (loadData this s files1 writes1 g1))
         files2 writes2 g2)
    = session_after (loadData this s files1 writes1 g1)
  ∧ resolved
      (loadData this (session_after (loadData this s files1 writes1 g1))
         files2 writes2 g2)
    = resolved (loadData this s files1 writes1 g2).
Proof.
  intros Hmiss Hwrites. destruct files1 as [[geo1 d1] y1].
  assert (loadData this s (geo1, d1, y1) writes1 g1
          = {| session_after :=
                 {| cachedGeoData := Some geo1;
                    cachedDinesafeData := Some d1;
                    cachedYelpData := Some y1 |};
               load_rng_after :=
                 rng_after (processData this g1 d1 (YelpArray y1));
               resolved :=
                 mergedData ← returned (processData this g1 d1 (YelpArray y1));
                 mret (geo1, mergedData) |}) as Hfirst.
  { unfold loadData.
    destruct writes1 as [|[|[|w]]]; [lia..|].
    destruct (cachedGeoData s), (cachedDinesafeData s), (cachedYelpData s);
      try done. by destruct Hmiss as [?|[?|?]]. }
  rewrite Hfirst. simpl. repeat split.
  unfold loadData.
  destruct (cachedGeoData s), (cachedDinesafeData s), (cachedYelpData s);
    try done. by destruct Hmiss as [?|[?|?]].
Qed.

Lemma cache_serves_later_loads_witness :
  resolved
    (loadData dataLoader
       (session_after
          (loadData dataLoader empty_session (tt, [row_a], [review_cafe])
             3 rng_zero))
       (tt, [row_b], []) 3 rng_zero)
  = resolved
      (loadData dataLoader empty_session (tt, [row_a], [review_cafe])
         3 rng_zero).
Proof.
  refine (proj2 (proj2 (cache_serves_later_loads dataLoader empty_session
                          (tt, [row_a], [review_cafe]) (tt, [row_b], [])
                          3 3 rng_zero rng_zero _ _))).
  - left. reflexivity.
  - lia.
Defined.

(** X17.  A load whose cache writes did not all succeed leaves no usable
    cache behind when the review entry was missing before: the next load
    fetches again, and returns what the newly fetched files give. *)
Theorem incomplete_cache_is_refetched {G : Type} (this : DataLoader)
    (s : session G) (files1 files2 : G * list object * list object)
    (writes1 writes2 : nat) (g1 g2 : rng) :
  cachedYelpData s = None →
  writes1 < 3 →
  cachedYelpData (session_after (loadData this s files1 writes1 g1)) = None
  ∧ resolved
      (loadData this (session_after (loadData this s files1 writes1 g1))
         files2 writes2 g2)
    = (mergedData ←
         returned (processData this g2 files2.1.2 (YelpArray files2.2));
       mret (files2.1.1, mergedData)).
Proof.
  intros Hyelp Hwrites.
  destruct files1 as [[geo1 d1] y1], files2 as [[geo2 d2] y2].
  assert (cachedYelpData
            (session_after (loadData this s (geo1, d1, y1) writes1 g1))
          = None) as Hafter.
  { unfold loadData. rewrite Hyelp.
    destruct (cachedGeoData s), (cachedDinesafeData s);
      destruct writes1 as [|[|[|w]]]; simpl; (done || lia). }
  split; [done|].
  set (s' := session_after (loadData this s (geo1, d1, y1) writes1 g1)) in *.
  unfold loadData. rewrite Hafter.
  by destruct (cachedGeoData s'), (cachedDinesafeData s').
Qed.

Lemma incomplete_cache_is_refetched_witness :
  cachedYelpData
    (session_after
       (loadData dataLoader empty_session (tt, [row_a], [review_cafe])
          2 rng_zero)) = None.
Proof.
  refine (proj1 (incomplete_cache_is_refetched dataLoader empty_session
                   (tt, [row_a], [review_cafe]) (tt, [row_b], [])
                   2 3 rng_zero rng_zero _ _)).
  - reflexivity.
  - lia.
Defined.

(** ** The prototype script *)

Lemma script_merge_enrich yelpLookup d e :
  enrich yelpLookup d = Ok e → script_merge yelpLookup d = Ok (fused_of e).
Proof.
  unfold enrich, script_merge. intros H.
  inv_bind H as m Hm. inv_bind H as score Hscore. inv_bind H as w Hw.
  injection H as <-. by rewrite Hm.
Qed.

Lemma script_filter_enriched merged :
  List.filter script_has_geo (fused_of <$> merged)
  = fused_of <$> List.filter has_geo merged.
Proof.
  induction merged as [|e merged IH]; [done|].
  rewrite fmap_cons. cbn [List.filter].
  change (script_has_geo (fused_of e)) with (has_geo e).
  destruct (has_geo e); by rewrite ?fmap_cons, IH.
Qed.

Lemma script_merge_Ok yelpLookup d f :
  script_merge yelpLookup d = Ok f → fused_row f = d.
Proof.
  unfold script_merge. intros H. inv_bind H as m Hm. by injection H as <-.
Qed.

(** X18.  [processData] extends the fusion of the prototype script: when
    no sampling takes place and [processData] returns, the script run on
    the restaurants of the dataset leaves the review rows in the same state
    and returns the same rows with the same matches, without the scores. *)
Theorem processData_extends_script (this : DataLoader) (g : rng)
    (dinesafeJson yelpData : list object) (out : list enriched) :
  within_bound this dinesafeJson →
  returned (processData this g dinesafeJson (YelpArray yelpData)) = Ok out →
  script_mergedData (restaurants this dinesafeJson) yelpData
  = (synthesize <$> yelpData, Ok (fused_of <$> out))
  ∧ yelp_after (processData this g dinesafeJson (YelpArray yelpData))
    = YelpArray (script_mergedData (restaurants this dinesafeJson) yelpData).1.
Proof.
  intros Hb Hout. rewrite processData_yelp_after. split; [|done].
  rewrite processData_returned, sampled_within_bound in Hout by done.
  simpl in Hout. inv_bind Hout as yelpLookup Hlookup.
  inv_bind Hout as merged Hmerged. injection Hout as <-.
  unfold script_mergedData. rewrite Hlookup. simpl. f_equal.
  assert (mapM (script_merge yelpLookup) (restaurants this dinesafeJson)
          = Ok (fused_of <$> merged)) as ->.
  { apply mapM_Ok. apply mapM_Ok in Hmerged.
    apply Forall2_fmap_r. eapply Forall2_impl; [exact Hmerged|].
    intros x e. apply script_merge_enrich. }
  simpl. by rewrite script_filter_enriched.
Qed.

Lemma processData_extends_script_witness :
  script_mergedData (restaurants dataLoader [row_a; row_b]) [review_cafe]
  = (synthesize <$> [review_cafe],
     Ok (fused_of <$> [ {| inherited := row_a; yelpMatch := YUndefined;
                           healthScore := 100; healthGrade := "A";
                           worstSeverity := "clean" |};
                        {| inherited := row_b; yelpMatch := YUndefined;
                           healthScore := 100; healthGrade := "A";
                           worstSeverity := "clean" |} ])).
Proof.
  refine (proj1 (processData_extends_script dataLoader rng_zero
                   [row_a; row_b] [review_cafe] _ _ _)).
  - right. vm_compute. discriminate.
  - reflexivity.
Defined.

(** X19.  The prototype script does not look at the severity or the type:
    it returns on every dataset whose names are text or falsy, whatever
    else the rows hold, and returns every row that has coordinates, in
    order, with nothing but [yelpMatch] added. *)
Theorem script_returns_all_rows (dinesafeJson yelpData : list object) :
  Forall (λ d, text_or_falsy (get d "Establishment Name") = true)
    dinesafeJson →
  Forall (λ r, review_wf r = true) yelpData →
  ∃ out,
    (script_mergedData dinesafeJson yelpData).2 = Ok out
    ∧ fused_row <$> out
      = List.filter
          (λ d, truthy (get d "Latitude") && truthy (get d "Longitude"))
          dinesafeJson.
Proof.
  intros Hd Hy. unfold script_mergedData. simpl.
  destruct (build_lookup_total (synthesize <$> yelpData) ∅)
    as [yelpLookup ->].
  { apply Forall_fmap. eapply Forall_impl; [exact Hy|].
    intros r. simpl. by rewrite review_wf_synthesize. }
  simpl.
  destruct (mapM_total (script_merge yelpLookup) dinesafeJson)
    as [merged Hmerged].
  { eapply Forall_impl; [exact Hd|]. intros d Hname. unfold script_merge.
    destruct (truthy _) eqn:Htruthy; [|by eexists].
    destruct (text_or_falsy_normalizes _ Hname Htruthy) as [k ->].
    by eexists. }
  rewrite Hmerged. simpl. eexists. split; [done|].
  apply mapM_Ok in Hmerged. clear Hd.
  induction Hmerged as [|d f ds merged Hdf _ IH]; [done|].
  apply script_merge_Ok in Hdf. cbn [List.filter].
  unfold script_has_geo at 1. rewrite truthy_js_and, Hdf.
  destruct (_ && _); [|exact IH]. by rewrite fmap_cons, IH, Hdf.
Qed.

Lemma script_returns_all_rows_witness :
  ∃ out,
    (script_mergedData
       [ <["Establishment Type" := VStr "Supermarket"]>
           (<["Severity" := of_Z 3]> row_a) ] [review_cafe]).2 = Ok out
    ∧ fused_row <$> out
      = List.filter
          (λ d, truthy (get d "Latitude") && truthy (get d "Longitude"))
          [ <["Establishment Type" := VStr "Supermarket"]>
              (<["Severity" := of_Z 3]> row_a) ].
Proof.
  apply (script_returns_all_rows
           [ <["Establishment Type" := VStr "Supermarket"]>
               (<["Severity" := of_Z 3]> row_a) ] [review_cafe]);
    repeat constructor.
Defined.

(** ** The tooltip *)

Import Tooltip.

Lemma tooltip_init_consistent el : consistent (init el).
Proof.
  split; simpl.
  - intros id cb. by rewrite lookup_empty.
  - intros id event d. by rewrite lookup_empty.
  - intros id. rewrite lookup_empty. split; discriminate.
  - discriminate.
Qed.

(** Every pending timer is held by one of the two fields. *)
Lemma pending_recorded st id cb :
  consistent st → timers st !! id = Some cb →
  tooltipShowTimeout st = Some id ∨ tooltipHideTimeout st = Some id.
Proof.
  intros Hc Hid. destruct cb as [event d|].
  - left. by eapply show_recorded.
  - right. by apply hide_recorded.
Qed.

Lemma cancel_hide_consistent st :
  consistent st →
  consistent (cancel_hide st)
  ∧ tooltipHideTimeout (cancel_hide st) = None
  ∧ tooltipShowTimeout (cancel_hide st) = tooltipShowTimeout st
  ∧ next_timer (cancel_hide st) = next_timer st
  ∧ tooltip (cancel_hide st) = tooltip st
  ∧ ∀ id, timers (cancel_hide st) !! id
          = if decide (tooltipHideTimeout st = Some id) then None
            else timers st !! id.
Proof.
  intros Hc. unfold cancel_hide.
  destruct (tooltipHideTimeout st) as [h|] eqn:Hh; simpl.
  - assert (∀ id, delete h (timers st) !! id
                  = if decide (Some h = Some id) then None
                    else timers st !! id) as Hlook.
    { intros id. rewrite lookup_delete. repeat case_decide; congruence. }
    repeat split; simpl; try done.
    + intros id cb. rewrite Hlook. case_decide; [done|].
      by apply (timers_fresh st).
    + intros id event d. rewrite Hlook. case_decide; [done|].
      by apply (show_recorded st).
    + rewrite Hlook. case_decide; [done|]. intros Hid.
      apply (hide_recorded st Hc) in Hid. congruence.
    + intros id Hs. rewrite Hlook. case_decide; [done|].
      by apply (show_not_hide st).
  - repeat split; try done; try apply Hc.
Qed.

Lemma cancel_show_consistent st :
  consistent st →
  consistent (cancel_show st)
  ∧ tooltipShowTimeout (cancel_show st) = None
  ∧ tooltipHideTimeout (cancel_show st) = tooltipHideTimeout st
  ∧ next_timer (cancel_show st) = next_timer st
  ∧ tooltip (cancel_show st) = tooltip st
  ∧ ∀ id, timers (cancel_show st) !! id
          = match timers st !! id with
            | Some HideTimer => Some HideTimer
            | _ => None
            end.
Proof.
  intros Hc. unfold cancel_show.
  destruct (tooltipShowTimeout st) as [s|] eqn:Hs; simpl.
  - assert (∀ id, delete s (timers st) !! id
                  = match timers st !! id with
                    | Some HideTimer => Some HideTimer
                    | _ => None
                    end) as Hlook.
    { intros id. rewrite lookup_delete. case_decide as Hid.
      - subst id. pose proof (show_not_hide st Hc s Hs).
        destruct (timers st !! s) as [[]|]; done.
      - destruct (timers st !! id) as [[event d|]|] eqn:Hcb; try done.
        apply (show_recorded st Hc) in Hcb. congruence. }
    repeat split; simpl; try done.
    + intros id cb Hid. rewrite Hlook in Hid.
      destruct (timers st !! id) as [[]|] eqn:Hcb; try done.
      by apply (timers_fresh st Hc) in Hcb.
    + intros id event d Hid. rewrite Hlook in Hid.
      by destruct (timers st !! id) as [[]|].
    + intros Hid. rewrite Hlook in Hid.
      destruct (timers st !! id) as [[]|] eqn:Hcb; try done.
      by apply (hide_recorded st Hc).
    + intros Hid. apply (hide_recorded st Hc) in Hid. rewrite Hlook.
      by rewrite Hid.
  - repeat split; try done; try apply Hc.
    intros id. destruct (timers st !! id) as [[event d|]|] eqn:Hcb; try done.
    apply (show_recorded st Hc) in Hcb. congruence.
Qed.

(** With no timer of [hide] pending, clearing the timer of [show] leaves
    nothing pending. *)
Lemma clear_show_empty st :
  consistent st → tooltipHideTimeout st = None →
  timers (match tooltipShowTimeout st with
          | Some id => clearTimeout id st
          | None => st
          end) = ∅.
Proof.
  intros Hc Hh. apply map_eq. intros id. rewrite lookup_empty.
  destruct (tooltipShowTimeout st) as [s|] eqn:Hs; simpl.
  - rewrite lookup_delete. case_decide; [done|].
    destruct (timers st !! id) as [cb|] eqn:Hcb; [|done].
    destruct (pending_recorded _ _ _ Hc Hcb); congruence.
  - destruct (timers st !! id) as [cb|] eqn:Hcb; [|done].
    destruct (pending_recorded _ _ _ Hc Hcb); congruence.
Qed.

Lemma singleton_consistent show_id hide_id m n el :
  (∀ id cb, m !! id = Some cb → id < n) →
  (∀ id event d, m !! id = Some (ShowTimer event d) → show_id = Some id) →
  (∀ id, m !! id = Some HideTimer ↔ hide_id = Some id) →
  (∀ id, show_id = Some id → m !! id ≠ Some HideTimer) →
  consistent {| tooltipShowTimeout := show_id; tooltipHideTimeout := hide_id;
                timers := m; next_timer := n; tooltip := el |}.
Proof. by split. Qed.

(** After [show] (outside an animation) the only pending timer is the one
    it has set. *)
Lemma after_show st event d :
  consistent st →
  consistent (show false event d st)
  ∧ timers (show false event d st) = {[ next_timer st := ShowTimer event d ]}
  ∧ tooltipShowTimeout (show false event d st) = Some (next_timer st)
  ∧ tooltipHideTimeout (show false event d st) = None
  ∧ tooltip (show false event d st) = tooltip st.
Proof.
  intros Hc. unfold show.
  destruct (cancel_hide_consistent st Hc) as (Hc1 & Hh1 & Hs1 & Hn1 & Ht1 & _).
  pose proof (clear_show_empty _ Hc1 Hh1) as Hempty.
  set (st1 := cancel_hide st) in *.
  assert (∀ st2, timers st2 = ∅ → next_timer st2 = next_timer st →
                 tooltipHideTimeout st2 = None → tooltip st2 = tooltip st →
                 let '(id, st3) := setTimeout (ShowTimer event d) st2 in
                 consistent (set_show (Some id) st3)
                 ∧ timers (set_show (Some id) st3)
                   = {[ next_timer st := ShowTimer event d ]}
                 ∧ tooltipShowTimeout (set_show (Some id) st3)
                   = Some (next_timer st)
                 ∧ tooltipHideTimeout (set_show (Some id) st3) = None
                 ∧ tooltip (set_show (Some id) st3) = tooltip st) as Hset.
  { intros st2 Hm Hn Hh Ht. unfold set_show. simpl.
    rewrite Hm, Hn, Hh, insert_empty.
    split; [|done]. apply singleton_consistent.
    - intros id cb [<- _]%lookup_singleton_Some. lia.
    - by intros id event' d' [<- _]%lookup_singleton_Some.
    - intros id. split; [|done]. by intros [_ ?]%lookup_singleton_Some.
    - intros id [= <-]. by rewrite lookup_singleton_eq. }
  destruct (tooltipShowTimeout st1) as [s|]; apply Hset; try done.
Qed.

(** After [hide] the only pending timer is the timer of [hide]. *)
Lemma after_hide st :
  consistent st →
  consistent (hide st)
  ∧ tooltipShowTimeout (hide st) = None
  ∧ tooltip (hide st) = tooltip st
  ∧ ∃ h, tooltipHideTimeout (hide st) = Some h
         ∧ timers (hide st) = {[ h := HideTimer ]}.
Proof.
  intros Hc. unfold hide.
  destruct (cancel_show_consistent st Hc)
    as (Hc1 & Hs1 & Hh1 & Hn1 & Ht1 & Hlook).
  set (st1 := cancel_show st) in *.
  destruct (tooltipHideTimeout st1) as [h|] eqn:Hh.
  - split; [done|]. split; [done|]. split; [done|]. exists h. split; [done|].
    apply map_eq. intros id. destruct (decide (h = id)) as [<-|Hne].
    + rewrite lookup_singleton_eq. by apply (hide_recorded st1 Hc1).
    + rewrite lookup_singleton_ne by done.
      destruct (timers st1 !! id) as [cb|] eqn:Hcb; [|done].
      destruct (pending_recorded _ _ _ Hc1 Hcb); congruence.
  - assert (timers st1 = ∅) as Hempty.
    { apply map_eq. intros id. rewrite lookup_empty.
      destruct (timers st1 !! id) as [cb|] eqn:Hcb; [|done].
      destruct (pending_recorded _ _ _ Hc1 Hcb); congruence. }
    unfold set_hide. simpl. rewrite Hempty, Hs1, insert_empty.
    split; [|split; [done|split; [done|by eexists]]].
    apply singleton_consistent.
    + intros id cb [<- _]%lookup_singleton_Some. lia.
    + by intros id event d [_ ?]%lookup_singleton_Some.
    + intros id. split.
      * by intros [<- _]%lookup_singleton_Some.
      * intros [= <-]. by rewrite lookup_singleton_eq.
    + discriminate.
Qed.

(** After both fields have been cancelled nothing is pending. *)
Lemma cancel_both st :
  consistent st →
  consistent (cancel_hide (cancel_show st))
  ∧ timers (cancel_hide (cancel_show st)) = ∅
  ∧ tooltipShowTimeout (cancel_hide (cancel_show st)) = None
  ∧ tooltipHideTimeout (cancel_hide (cancel_show st)) = None
  ∧ tooltip (cancel_hide (cancel_show st)) = tooltip st.
Proof.
  intros Hc.
  destruct (cancel_show_consistent st Hc) as (Hc1 & Hs1 & _ & _ & Ht1 & _).
  destruct (cancel_hide_consistent _ Hc1) as (Hc2 & Hh2 & Hs2 & _ & Ht2 & _).
  split; [done|]. split; [|split; [congruence|split; [done|congruence]]].
  apply map_eq. intros id. rewrite lookup_empty.
  destruct (timers _ !! id) as [cb|] eqn:Hcb; [|done].
  destruct (pending_recorded _ _ _ Hc2 Hcb); congruence.
Qed.

Lemma cancel_show_hide_comm st :
  consistent st → cancel_show (cancel_hide st) = cancel_hide (cancel_show st).
Proof.
  intros Hc. unfold cancel_show, cancel_hide.
  destruct (tooltipShowTimeout st) as [s|] eqn:Hs,
    (tooltipHideTimeout st) as [h|] eqn:Hh; simpl;
    rewrite ?Hs, ?Hh; simpl; try done.
  unfold set_show, set_hide, clearTimeout. simpl. f_equal.
  apply delete_delete.
Qed.

Lemma set_tooltip_consistent el st :
  consistent st → consistent (set_tooltip el st).
Proof. intros Hc. split; apply Hc. Qed.

Lemma move_consistent pg event st : consistent st → consistent (move pg event st).
Proof.
  intros Hc. unfold move. destruct (tooltipNode pg) as [[w h]|]; [|done].
  destruct (position _ _ _ _). by apply set_tooltip_consistent.
Qed.

Lemma move_bookkeeping pg event st :
  timers (move pg event st) = timers st
  ∧ tooltipShowTimeout (move pg event st) = tooltipShowTimeout st
  ∧ tooltipHideTimeout (move pg event st) = tooltipHideTimeout st
  ∧ hidden (tooltip (move pg event st)) = hidden (tooltip st)
  ∧ html (tooltip (move pg event st)) = html (tooltip st).
Proof.
  unfold move. destruct (tooltipNode pg) as [[w h]|]; [|done].
  by destruct (position _ _ _ _).
Qed.

Section tooltip_timers.
Context (render : enriched → option string).

Lemma fire_consistent pg id st :
  consistent st → consistent (fire render pg id st).
Proof.
  intros Hc. unfold fire. destruct (timers st !! id) as [cb|] eqn:Hcb; [|done].
  assert (consistent (clearTimeout id st) ∨ cb = HideTimer) as Hclear.
  { destruct cb as [event d|]; [left|by right]. split; simpl.
    - intros id' cb'. rewrite lookup_delete. case_decide; [done|].
      apply (timers_fresh st Hc).
    - intros id' event' d'. rewrite lookup_delete. case_decide; [done|].
      apply (show_recorded st Hc).
    - intros id'. rewrite lookup_delete. case_decide as Hid.
      + subst id'. split; [done|]. intros Hh%(hide_recorded st Hc).
        congruence.
      + apply (hide_recorded st Hc).
    - intros id' Hs. rewrite lookup_delete. case_decide; [done|].
      by apply (show_not_hide st Hc). }
  destruct cb as [event d|].
  - destruct Hclear as [Hclear|]; [|done].
    destruct (render d); [apply move_consistent|];
      by repeat apply set_tooltip_consistent.
  - split; simpl.
    + intros id' cb'. rewrite lookup_delete. case_decide; [done|].
      apply (timers_fresh st Hc).
    + intros id' event' d'. rewrite lookup_delete. case_decide; [done|].
      apply (show_recorded st Hc).
    + intros id'. rewrite lookup_delete. case_decide as Hid.
      * subst id'. split; done.
      * split; [|done]. intros Hh%(hide_recorded st Hc).
        apply (hide_recorded st Hc) in Hcb. congruence.
    + intros id' Hs. rewrite lookup_delete. case_decide; [done|].
      by apply (show_not_hide st Hc).
Qed.

Lemma step_consistent st a : consistent st → consistent (step render st a).
Proof.
  intros Hc. destruct a as [anim event d|anim pg event content|pg event| | |pg id|];
    simpl.
  - destruct anim; [done|]. by apply after_show.
  - unfold showCustom. destruct anim; [done|].
    rewrite cancel_show_hide_comm by done.
    apply move_consistent, set_tooltip_consistent. by apply cancel_both.
  - by apply move_consistent.
  - by apply after_hide.
  - unfold hideImmediate. apply set_tooltip_consistent. by apply cancel_both.
  - by apply fire_consistent.
  - split; simpl; try apply Hc.
    intros id cb Hid. apply (timers_fresh st Hc) in Hid. lia.
Qed.

Lemma run_consistent st actions :
  consistent st → consistent (run render st actions).
Proof.
  revert st. induction actions as [|a actions IH]; intros st Hc; [done|].
  simpl. apply IH. by apply step_consistent.
Qed.
End tooltip_timers.

Lemma pending_at_most_two st : consistent st → size (timers st) ≤ 2.
Proof.
  intros Hc. rewrite <-(size_dom (D := gset nat)).
  set (A := from_option (λ id, {[ id ]}) (∅ : gset nat) (tooltipShowTimeout st)).
  set (B := from_option (λ id, {[ id ]}) (∅ : gset nat) (tooltipHideTimeout st)).
  assert (dom (timers st) ⊆ A ∪ B) as Hsub.
  { intros id [cb Hcb]%elem_of_dom. apply elem_of_union.
    destruct (pending_recorded _ _ _ Hc Hcb) as [Hid|Hid]; [left|right];
      subst A B; rewrite Hid; unfold from_option; by apply elem_of_singleton. }
  apply subseteq_size in Hsub. rewrite size_union_alt in Hsub.
  assert (size A ≤ 1) as HA.
  { subst A. destruct (tooltipShowTimeout st); unfold from_option;
      [rewrite size_singleton | rewrite size_empty]; lia. }
  assert (size (B ∖ A) ≤ 1) as HB.
  { trans (size B); [by apply subseteq_size, subseteq_difference_l|].
    subst B. destruct (tooltipHideTimeout st); unfold from_option;
      [rewrite size_singleton | rewrite size_empty]; lia. }
  lia.
Qed.

Section tooltip_properties.
Context (render : enriched → option string).

(** With nothing pending no expiry does anything. *)
Lemma expiries_nothing st fires :
  timers st = ∅ → run render st (expiries fires) = st.
Proof.
  intros Hempty. induction fires as [|[pg id] fires IH]; [done|].
  simpl. unfold fire. by rewrite Hempty, lookup_empty.
Qed.

(** With only the timer of [hide] pending, expiries leave content and
    position alone, and hide the tooltip once that timer is among them. *)
Lemma expiries_only_hide st h fires :
  timers st = {[ h := HideTimer ]} →
  html (tooltip (run render st (expiries fires))) = html (tooltip st)
  ∧ left (tooltip (run render st (expiries fires))) = left (tooltip st)
  ∧ top (tooltip (run render st (expiries fires))) = top (tooltip st)
  ∧ (h ∈ fires.*2 →
     hidden (tooltip (run render st (expiries fires))) = true)
  ∧ (h ∉ fires.*2 → run render st (expiries fires) = st).
Proof.
  intros Hm. revert st Hm. induction fires as [|[pg id] fires IH];
    intros st Hm.
  { repeat split; try done. by intros ?%elem_of_nil. }
  simpl. destruct (decide (id = h)) as [->|Hne].
  - assert (fire render pg h st
            = set_hide None
                (set_tooltip (classed_hidden true (tooltip st))
                   (clearTimeout h st))) as Hfire.
    { unfold fire. by rewrite Hm, lookup_singleton_eq. }
    rewrite Hfire. rewrite expiries_nothing.
    + repeat split; try done. intros Hnot. destruct Hnot. by left.
    + simpl. rewrite Hm. apply delete_singleton_eq.
  - assert (fire render pg id st = st) as ->.
    { unfold fire. by rewrite Hm, lookup_singleton_ne. }
    destruct (IH st Hm) as (? & ? & ? & Hin & Hnot).
    repeat split; try done.
    + intros [?|?]%elem_of_cons; [done|]. by apply Hin.
    + intros Hnotin. apply Hnot. intros ?. apply Hnotin. by right.
Qed.

(** X20.  The timers of a tooltip never pile up: after any sequence of
    calls and expiries at most one timer of [show] and at most one timer
    of [hide] are pending, so at most two in all, and the timer of [hide]
    is pending exactly when [tooltipHideTimeout] holds its id. *)
Theorem tooltip_timers_bounded (el : element) (actions : list action) :
  (∀ id1 id2 event1 d1 event2 d2,
     timers (run render (init el) actions) !! id1
     = Some (ShowTimer event1 d1) →
     timers (run render (init el) actions) !! id2
     = Some (ShowTimer event2 d2) →
     id1 = id2)
  ∧ (∀ id, timers (run render (init el) actions) !! id = Some HideTimer
           ↔ tooltipHideTimeout (run render (init el) actions) = Some id)
  ∧ size (timers (run render (init el) actions)) ≤ 2.
Proof.
  pose proof (run_consistent render _ actions (tooltip_init_consistent el))
    as Hc.
  split; [|split].
  - intros id1 id2 event1 d1 event2 d2 H1 H2.
    apply (show_recorded _ Hc) in H1, H2. congruence.
  - apply (hide_recorded _ Hc).
  - by apply pending_at_most_two.
Qed.

(** X21.  [hideImmediate] is final: after it the tooltip is hidden and no
    timer is pending, so no expiry whatever changes anything until the
    next call. *)
Theorem hideImmediate_final (el : element) (actions : list action)
    (fires : list (page * nat)) :
  hidden (tooltip (hideImmediate (run render (init el) actions))) = true
  ∧ timers (hideImmediate (run render (init el) actions)) = ∅
  ∧ run render (hideImmediate (run render (init el) actions))
      (expiries fires)
    = hideImmediate (run render (init el) actions).
Proof.
  pose proof (run_consistent render _ actions (tooltip_init_consistent el))
    as Hc.
  destruct (cancel_both _ Hc) as (_ & Hempty & _).
  assert (timers (hideImmediate (run render (init el) actions)) = ∅) as Hm.
  { exact Hempty. }
  split; [done|]. split; [done|]. by apply expiries_nothing.
Qed.

(** X22.  A [show] that is followed by [hide] before its timer expires
    never reaches the element: whatever timers expire afterwards, content
    and position stay as they were, and once the timer of [hide] has
    expired the tooltip is hidden. *)
Theorem show_then_hide (el : element) (actions : list action)
    (event : mouse_event) (d : enriched) (fires : list (page * nat)) :
  let st := run render (init el) actions in
  let final := run render (hide (show false event d st)) (expiries fires) in
  html (tooltip final) = html (tooltip st)
  ∧ left (tooltip final) = left (tooltip st)
  ∧ top (tooltip final) = top (tooltip st)
  ∧ ∃ h, tooltipHideTimeout (hide (show false event d st)) = Some h
         ∧ (h ∈ fires.*2 → hidden (tooltip final) = true)
         ∧ (h ∉ fires.*2 → hidden (tooltip final) = hidden (tooltip st)).
Proof.
  intros st final. subst final.
  pose proof (run_consistent render _ actions (tooltip_init_consistent el))
    as Hc. fold st in Hc.
  destruct (after_show st event d Hc) as (Hc1 & _ & _ & _ & Ht1).
  destruct (after_hide _ Hc1) as (_ & _ & Ht2 & h & Hh & Hm).
  destruct (expiries_only_hide _ h fires Hm) as (Hhtml & Hleft & Htop & Hin & Hnot).
  rewrite Hhtml, Hleft, Htop, Ht2, Ht1. repeat split.
  exists h. split; [done|]. split; [done|].
  intros Hnotin. rewrite (Hnot Hnotin). by rewrite Ht2, Ht1.
Qed.

(** X23.  Calling [hide] again while the tooltip waits to be hidden changes
    nothing: the pending timer is kept, no second one is set. *)
Theorem hide_twice (st : state) : hide (hide st) = hide st.
Proof.
  assert (∀ st', tooltipShowTimeout st' = None →
                 is_Some (tooltipHideTimeout st') → hide st' = st') as Hnoop.
  { intros st' Hs [h Hh]. unfold hide, cancel_show. rewrite Hs. simpl.
    by rewrite Hh. }
  assert (tooltipShowTimeout (cancel_show st) = None) as Hs.
  { unfold cancel_show. by destruct (tooltipShowTimeout st) eqn:H. }
  unfold hide at 2. 
  destruct (tooltipHideTimeout (cancel_show st)) as [h|] eqn:Hh.
  - unfold hide at 2. rewrite Hh. apply Hnoop; [done|]. by rewrite Hh.
  - unfold hide at 2. rewrite Hh. apply Hnoop; simpl; [done|by eexists].
Qed.

(** What the expiry of a timer of [show] does. *)
Lemma fire_show st pg id event d :
  timers st !! id = Some (ShowTimer event d) →
  timers (fire render pg id st) = delete id (timers st)
  ∧ hidden (tooltip (fire render pg id st)) = false
  ∧ html (tooltip (fire render pg id st))
    = match render d with
      | Some h => Some h
      | None => html (tooltip st)
      end.
Proof.
  intros Hid. unfold fire. rewrite Hid. destruct (render d) as [h|]; [|done].
  match goal with
  | |- context [move ?p ?e ?s] =>
      destruct (move_bookkeeping p e s) as (-> & _ & _ & -> & ->)
  end.
  done.
Qed.

(** X24.  A [show] outside an animation cancels a pending [hide]: once the
    timer it has set expires, the tooltip is visible with the content of
    the row (its old content when the template raises), and no later
    expiry hides it. *)
Theorem show_cancels_hide (el : element) (actions : list action)
    (event : mouse_event) (d : enriched) (pg : page)
    (fires : list (page * nat)) :
  let st := run render (init el) actions in
  let final :=
    run render (fire render pg (next_timer st) (show false event d st))
      (expiries fires) in
  hidden (tooltip final) = false
  ∧ html (tooltip final)
    = match render d with
      | Some h => Some h
      | None => html (tooltip st)
      end.
Proof.
  intros st final. subst final.
  pose proof (run_consistent render _ actions (tooltip_init_consistent el))
    as Hc. fold st in Hc.
  destruct (after_show st event d Hc) as (_ & Hm & _ & _ & Ht).
  destruct (fire_show (show false event d st) pg (next_timer st) event d)
    as (Hm' & Hhidden & Hhtml).
  { by rewrite Hm, lookup_singleton_eq. }
  rewrite expiries_nothing.
  - by rewrite Hhidden, Hhtml, Ht.
  - rewrite Hm', Hm. apply delete_singleton_eq.
Qed.
End tooltip_properties.

(** X25.  [move] keeps the tooltip on the page: it is never less than 10
    pixels from the left and top edges, and when the pointer is inside the
    window and the tooltip is at least 20 pixels narrower (lower) than the
    window, it also ends at least 10 pixels before the right (bottom)
    edge. *)
Theorem move_inside_window (pg : page) (event : mouse_event) (st : state)
    (width height : Z) :
  tooltipNode pg = Some (width, height) →
  (10 ≤ left (tooltip (move pg event st)))%Z
  ∧ (10 ≤ top (tooltip (move pg event st)))%Z
  ∧ ((0 ≤ pageX event ≤ innerWidth pg)%Z →
     (width + 20 ≤ innerWidth pg)%Z →
     (left (tooltip (move pg event st)) + width ≤ innerWidth pg - 10)%Z)
  ∧ ((0 ≤ pageY event ≤ innerHeight pg)%Z →
     (height + 20 ≤ innerHeight pg)%Z →
     (top (tooltip (move pg event st)) + height ≤ innerHeight pg - 10)%Z).
Proof.
  intros Hnode. unfold move, position. rewrite Hnode. simpl.
  repeat split; try lia.
  - intros Hx Hw. destruct (Z.ltb_spec (innerWidth pg - 10)
                              (pageX event + 20 + width)); lia.
  - intros Hy Hh. destruct (Z.ltb_spec (innerHeight pg - 10)
                              (pageY event + 20 + height)); lia.
Qed.

Lemma move_inside_window_witness :
  (10 ≤ left (tooltip (move {| tooltipNode := Some (250, 180)%Z;
                               innerWidth := 1280; innerHeight := 720 |}
                         {| pageX := 1200; pageY := 700 |}
                         (init {| hidden := true; html := None;
                                  left := 0; top := 0 |}))))%Z.
Proof.
  refine (proj1 (move_inside_window
                   {| tooltipNode := Some (250, 180)%Z;
                      innerWidth := 1280; innerHeight := 720 |}
                   {| pageX := 1200; pageY := 700 |}
                   (init {| hidden := true; html := None;
                            left := 0; top := 0 |})
                   250 180 _)).
  reflexivity.
Defined.

(** X26.  [move] keeps the tooltip off the pointer: in each direction the
    tooltip either starts 20 pixels after the pointer or ends 20 pixels
    before it, unless that would put it less than 10 pixels from the left
    (top) edge, where it is placed instead. *)
Theorem move_clear_of_pointer (pg : page) (event : mouse_event) (st : state)
    (width height : Z) :
  tooltipNode pg = Some (width, height) →
  (left (tooltip (move pg event st)) = 10
   ∨ left (tooltip (move pg event st)) = pageX event + 20
   ∨ left (tooltip (move pg event st)) + width = pageX event - 20)%Z
  ∧ (top (tooltip (move pg event st)) = 10
     ∨ top (tooltip (move pg event st)) = pageY event + 20
     ∨ top (tooltip (move pg event st)) + height = pageY event - 20)%Z.
Proof.
  intros Hnode. unfold move, position. rewrite Hnode. simpl.
  destruct (Z.ltb_spec (innerWidth pg - 10) (pageX event + 20 + width)),
    (Z.ltb_spec (innerHeight pg - 10) (pageY event + 20 + height)); lia.
Qed.

Lemma move_clear_of_pointer_witness :
  (left (tooltip (move {| tooltipNode := Some (250, 180)%Z;
                          innerWidth := 1280; innerHeight := 720 |}
                    {| pageX := 1200; pageY := 700 |}
                    (init {| hidden := true; html := None;
                             left := 0; top := 0 |}))) = 10
   ∨ left (tooltip (move {| tooltipNode := Some (250, 180)%Z;
                            innerWidth := 1280; innerHeight := 720 |}
                      {| pageX := 1200; pageY := 700 |}
                      (init {| hidden := true; html := None;
                               left := 0; top := 0 |}))) = 1200 + 20
   ∨ left (tooltip (move {| tooltipNode := Some (250, 180)%Z;
                            innerWidth := 1280; innerHeight := 720 |}
                      {| pageX := 1200; pageY := 700 |}
                      (init {| hidden := true; html := None;
                               left := 0; top := 0 |}))) + 250 = 1200 - 20)%Z.
Proof.
  refine (proj1 (move_clear_of_pointer
                   {| tooltipNode := Some (250, 180)%Z;
                      innerWidth := 1280; innerHeight := 720 |}
                   {| pageX := 1200; pageY := 700 |}
                   (init {| hidden := true; html := None;
                            left := 0; top := 0 |})
                   250 180 _)).
  reflexivity.
Defined.

(** Near the bottom right corner the tooltip goes up and to the left. *)
Example move_near_corner :
  let el := tooltip (move {| tooltipNode := Some (250, 180)%Z;
                             innerWidth := 1280; innerHeight := 720 |}
                       {| pageX := 1200; pageY := 700 |}
                       (init {| hidden := true; html := None;
                                left := 0; top := 0 |})) in
  left el = 930%Z ∧ top el = 500%Z.
Proof. split; reflexivity. Qed.

(** X27.  The colour of the score in the tooltip follows the grade only in
    part: the score is green exactly for grade A, orange for every grade
    B and red for every grade D, but a grade C is orange from 70 up and
    red below; of the scores the pipeline gives, 70 is an orange C and 60
    a red C. *)
Theorem score_colour_by_grade (score : Z) :
  (score_colour score = "#27ae60" ↔ getHealthGrade score = "A")
  ∧ (getHealthGrade score = "B" → score_colour score = "#f39c12")
  ∧ (getHealthGrade score = "D" → score_colour score = "#e74c3c")
  ∧ (getHealthGrade score = "C" →
     (score_colour score = "#f39c12" ↔ (70 ≤ score)%Z)
     ∧ (score_colour score = "#e74c3c" ↔ (score < 70)%Z)).
Proof.
  unfold score_colour, getHealthGrade.
  destruct (Z.leb_spec 90 score), (Z.leb_spec 75 score),
    (Z.leb_spec 70 score), (Z.leb_spec 60 score);
    repeat split; intros; try done; lia.
Qed.
